(** * Tic-tac-toe with minimax and alpha-beta pruning

    A shallow embedding of [ai_tic_tac_toe.py] (class [TicTacToe]) and the
    properties of its game controller and search engine.

    The Python object is a record [game]; every method takes the record and
    returns the mutated record next to its return value.  A Python exception
    is a [Raise]; the recursion of [minimax] is bounded by a fuel argument,
    and the theorems show that a fuel above the number of blank cells always
    suffices. *)

From Stdlib Require Import String.
From Stdlib Require Import ZArith Lia Bool List.
From stdpp Require Import base list.
Import ListNotations.
Local Open Scope Z_scope.

(** ** Results of fallible computations *)

Inductive exn := IndexError | OutOfFuel.

Inductive result (A : Type) :=
| Ok (a : A)
| Raise (e : exn).
Arguments Ok {A} a.
Arguments Raise {A} e.

Definition bind {A B} (m : result A) (f : A -> result B) : result B :=
  match m with
  | Ok a => f a
  | Raise e => Raise e
  end.

Notation "'do' x <- m ; f" := (bind m (fun x => f))
  (at level 10, x pattern, m at level 100, f at level 200).

(** ** Data model *)

Inductive player := X | O.

(** A cell holds [' '], ['X'] or ['O']. *)
Inductive cell := Blank | Mark (p : player).

Definition player_eqb (p q : player) : bool :=
  match p, q with
  | X, X | O, O => true
  | _, _ => false
  end.

Definition cell_eqb (c d : cell) : bool :=
  match c, d with
  | Blank, Blank => true
  | Mark p, Mark q => player_eqb p q
  | _, _ => false
  end.

Definition board := list (list cell).
Definition move := (Z * Z)%type.

Definition BOARD_SIZE : Z := 3.

(** [range n] is Python's [range(n)]. *)
Definition range (n : Z) : list Z := map Z.of_nat (seq 0 (Z.to_nat n)).

(** Python list indexing: an index in [-len, 0) counts from the end, an index
    outside [-len, len) raises [IndexError]. *)
Definition py_index {A} (l : list A) (i : Z) : option nat :=
  let n := Z.of_nat (length l) in
  if (0 <=? i) && (i <? n) then Some (Z.to_nat i)
  else if (- n <=? i) && (i <? 0) then Some (Z.to_nat (i + n))
  else None.

Definition py_get {A} (l : list A) (i : Z) : result A :=
  match py_index l i with
  | Some k => match l !! k with Some x => Ok x | None => Raise IndexError end
  | None => Raise IndexError
  end.

Definition py_set {A} (l : list A) (i : Z) (v : A) : result (list A) :=
  match py_index l i with
  | Some k => Ok (<[k := v]> l)
  | None => Raise IndexError
  end.

(** [board[row][col]] *)
Definition getc (b : board) (row col : Z) : result cell :=
  do r <- py_get b row; py_get r col.

(** [board[row][col] = v] *)
Definition setc (b : board) (row col : Z) (v : cell) : result board :=
  do r <- py_get b row;
  do r' <- py_set r col v;
  py_set b row r'.

Definition blank_board : board :=
  map (fun _ => map (fun _ => Blank) (range BOARD_SIZE)) (range BOARD_SIZE).

Record game := mkGame {
  gboard : board;
  current_player : player;
  game_over : bool;
  winner : option player;
  last_ai_move : option move;
  moves_made : Z;
  max_moves : Z;
  player_wins : Z;
  ai_wins : Z;
  draws : Z;
  nodes_explored : Z;
  depth_reached : Z
}.

Definition with_board (b : board) (g : game) : game :=
  mkGame b (current_player g) (game_over g) (winner g) (last_ai_move g)
    (moves_made g) (max_moves g) (player_wins g) (ai_wins g) (draws g)
    (nodes_explored g) (depth_reached g).

Definition with_counters (n d : Z) (g : game) : game :=
  mkGame (gboard g) (current_player g) (game_over g) (winner g)
    (last_ai_move g) (moves_made g) (max_moves g) (player_wins g) (ai_wins g)
    (draws g) n d.

(** [TicTacToe.__init__] *)
Definition init_game : game :=
  mkGame blank_board X false None None 0 (BOARD_SIZE * BOARD_SIZE) 0 0 0 0 0.

(** [TicTacToe.reset_game] *)
Definition reset_game (g : game) : game :=
  mkGame blank_board X false None None 0 (max_moves g)
    (player_wins g) (ai_wins g) (draws g) 0 0.

(** ** Win detection and move generation *)

(** [all(f(j) for j in js)]: stops at the first [False]. *)
Fixpoint all_of (f : Z -> result bool) (js : list Z) : result bool :=
  match js with
  | [] => Ok true
  | j :: js' =>
      do t <- f j;
      if t then all_of f js' else Ok false
  end.

Definition cell_is (b : board) (p : player) (row col : Z) : result bool :=
  do c <- getc b row col; Ok (cell_eqb c (Mark p)).

(** The [for i in range(BOARD_SIZE)] loop of [check_winner]: row [i], then
    column [i]. *)
Fixpoint rows_cols (b : board) (p : player) (idxs : list Z) : result bool :=
  match idxs with
  | [] => Ok false
  | i :: idxs' =>
      do r <- all_of (fun j => cell_is b p i j) (range BOARD_SIZE);
      if r then Ok true else
      do c <- all_of (fun j => cell_is b p j i) (range BOARD_SIZE);
      if c then Ok true else rows_cols b p idxs'
  end.

(** [TicTacToe.check_winner] *)
Definition check_winner (b : board) (p : player) : result bool :=
  do rc <- rows_cols b p (range BOARD_SIZE);
  if rc then Ok true else
  do d1 <- all_of (fun i => cell_is b p i i) (range BOARD_SIZE);
  if d1 then Ok true else
  do d2 <- all_of (fun i => cell_is b p i (BOARD_SIZE - 1 - i)) (range BOARD_SIZE);
  if d2 then Ok true else Ok false.

Fixpoint empty_in_row (b : board) (i : Z) (js : list Z) : result (list move) :=
  match js with
  | [] => Ok []
  | j :: js' =>
      do c <- getc b i j;
      do rest <- empty_in_row b i js';
      Ok (if cell_eqb c Blank then (i, j) :: rest else rest)
  end.

Fixpoint empty_in_rows (b : board) (idxs : list Z) : result (list move) :=
  match idxs with
  | [] => Ok []
  | i :: idxs' =>
      do r <- empty_in_row b i (range BOARD_SIZE);
      do rest <- empty_in_rows b idxs';
      Ok (r ++ rest)
  end.

(** [TicTacToe.get_empty_cells]: the blank cells in row-major order. *)
Definition get_empty_cells (b : board) : result (list move) :=
  empty_in_rows b (range BOARD_SIZE).

(** ** Game controller *)

Definition other (p : player) : player :=
  match p with X => O | O => X end.

(** [TicTacToe.make_move] *)
Definition make_move (g : game) (row col : Z) (p : player) : result (bool * game) :=
  if game_over g then Ok (false, g) else
  do c <- getc (gboard g) row col;
  if negb (cell_eqb c Blank) then Ok (false, g) else
  do b' <- setc (gboard g) row col (Mark p);
  let moves := moves_made g + 1 in
  do w <- check_winner b' p;
  let cur := match p with X => O | O => X end in
  if w then
    Ok (true,
        mkGame b' cur true (Some p) (last_ai_move g) moves (max_moves g)
          (match p with X => player_wins g + 1 | O => player_wins g end)
          (match p with X => ai_wins g | O => ai_wins g + 1 end)
          (draws g) (nodes_explored g) (depth_reached g))
  else if moves =? max_moves g then
    Ok (true,
        mkGame b' cur true (winner g) (last_ai_move g) moves (max_moves g)
          (player_wins g) (ai_wins g) (draws g + 1)
          (nodes_explored g) (depth_reached g))
  else
    Ok (true,
        mkGame b' cur (game_over g) (winner g) (last_ai_move g) moves
          (max_moves g) (player_wins g) (ai_wins g) (draws g)
          (nodes_explored g) (depth_reached g)).

(** [TicTacToe.is_valid_move] *)
Definition is_valid_move (g : game) (row col : Z) : result bool :=
  if (0 <=? row) && (row <? BOARD_SIZE) && (0 <=? col) && (col <? BOARD_SIZE)
  then do c <- getc (gboard g) row col; Ok (cell_eqb c Blank)
  else Ok false.

(** ** Search engine *)

(** Scores are Python numbers: integers and the two floats [-math.inf] and
    [math.inf]. *)
Inductive score := NegInf | Fin (z : Z) | PosInf.

Definition score_ltb (a b : score) : bool :=
  match a, b with
  | NegInf, NegInf => false
  | NegInf, _ => true
  | Fin _, NegInf => false
  | Fin x, Fin y => x <? y
  | Fin _, PosInf => true
  | PosInf, _ => false
  end.

Definition score_leb (a b : score) : bool := negb (score_ltb b a).

(** [max(a, b)] and [min(a, b)] return [a] unless [b] is strictly better. *)
Definition py_max (a b : score) : score := if score_ltb a b then b else a.
Definition py_min (a b : score) : score := if score_ltb b a then b else a.

Definition search_result := (score * option move * game)%type.

Section Loops.
(** The recursive call [self.minimax(depth + 1, ..., alpha, beta)]. *)
Variable rec : game -> Z -> bool -> score -> score -> result search_result.

(** The [for row, col in self.get_empty_cells()] loop of the maximizing
    branch. *)
Fixpoint max_loop (cells : list move) (g : game) (depth : Z)
    (alpha beta max_eval : score) (best_move : option move)
    : result search_result :=
  match cells with
  | [] => Ok (max_eval, best_move, g)
  | (row, col) :: rest =>
      do b1 <- setc (gboard g) row col (Mark O);
      do (eval_score, _, g1) <- rec (with_board b1 g) (depth + 1) false alpha beta;
      do b2 <- setc (gboard g1) row col Blank;
      let g2 := with_board b2 g1 in
      let max_eval' := if score_ltb max_eval eval_score then eval_score else max_eval in
      let best_move' := if score_ltb max_eval eval_score then Some (row, col) else best_move in
      let alpha' := py_max alpha eval_score in
      if score_leb beta alpha' then Ok (max_eval', best_move', g2)
      else max_loop rest g2 depth alpha' beta max_eval' best_move'
  end.

(** The loop of the minimizing branch. *)
Fixpoint min_loop (cells : list move) (g : game) (depth : Z)
    (alpha beta min_eval : score) (best_move : option move)
    : result search_result :=
  match cells with
  | [] => Ok (min_eval, best_move, g)
  | (row, col) :: rest =>
      do b1 <- setc (gboard g) row col (Mark X);
      do (eval_score, _, g1) <- rec (with_board b1 g) (depth + 1) true alpha beta;
      do b2 <- setc (gboard g1) row col Blank;
      let g2 := with_board b2 g1 in
      let min_eval' := if score_ltb eval_score min_eval then eval_score else min_eval in
      let best_move' := if score_ltb eval_score min_eval then Some (row, col) else best_move in
      let beta' := py_min beta eval_score in
      if score_leb beta' alpha then Ok (min_eval', best_move', g2)
      else min_loop rest g2 depth alpha beta' min_eval' best_move'
  end.
End Loops.

(** [TicTacToe.minimax] *)
Fixpoint minimax (fuel : nat) (g : game) (depth : Z) (is_maximizing : bool)
    (alpha beta : score) : result search_result :=
  match fuel with
  | 0%nat => Raise OutOfFuel
  | S fuel' =>
      let g := with_counters (nodes_explored g + 1)
                 (Z.max (depth_reached g) depth) g in
      do wo <- check_winner (gboard g) O;
      if wo then Ok (Fin (10 - depth), None, g) else
      do wx <- check_winner (gboard g) X;
      if wx then Ok (Fin (depth - 10), None, g) else
      do cells <- get_empty_cells (gboard g);
      match cells with
      | [] => Ok (Fin 0, None, g)
      | _ =>
          if is_maximizing then
            do cells <- get_empty_cells (gboard g);
            max_loop (minimax fuel') cells g depth alpha beta NegInf None
          else
            do cells <- get_empty_cells (gboard g);
            min_loop (minimax fuel') cells g depth alpha beta PosInf None
      end
  end.

(** [TicTacToe.get_ai_move] *)
Definition get_ai_move (fuel : nat) (g : game) : result (move * game) :=
  do (_, mv, g1) <- minimax fuel g 0 true NegInf PosInf;
  match mv with
  | None =>
      do cells <- get_empty_cells (gboard g1);
      do c <- py_get cells 0;
      Ok (c, g1)
  | Some m => Ok (m, g1)
  end.

(** ** Self-play

    The driver of the optimal-play scenario: while the game is not over, the
    player to move searches with itself as the optimizing side (['O']
    maximizes, ['X'] minimizes) and commits the chosen cell with
    [make_move]. *)

Definition is_maximizer (p : player) : bool :=
  match p with O => true | X => false end.

Fixpoint self_play (turns fuel : nat) (g : game) : option game :=
  if game_over g then Some g else
  match turns with
  | 0%nat => None
  | S turns' =>
      match minimax fuel g 0 (is_maximizer (current_player g)) NegInf PosInf with
      | Ok (_, Some (row, col), g1) =>
          match make_move g1 row col (current_player g1) with
          | Ok (true, g2) => self_play turns' fuel g2
          | _ => None
          end
      | _ => None
      end
  end.

(** ** The search as a function of the board

    [alphabeta] is [minimax] without the object around it: the board is a
    value, a placement builds a new board and nothing is rolled back or
    counted.  [minimax_alphabeta] below shows that [minimax] computes exactly
    this function. *)

Definition value := (score * option move)%type.

Section PureLoops.
Variable rec : board -> Z -> bool -> score -> score -> result value.

Fixpoint ab_max_loop (cells : list move) (b : board) (depth : Z)
    (alpha beta max_eval : score) (best_move : option move) : result value :=
  match cells with
  | [] => Ok (max_eval, best_move)
  | (row, col) :: rest =>
      do b1 <- setc b row col (Mark O);
      do (eval_score, _) <- rec b1 (depth + 1) false alpha beta;
      let max_eval' := if score_ltb max_eval eval_score then eval_score else max_eval in
      let best_move' := if score_ltb max_eval eval_score then Some (row, col) else best_move in
      let alpha' := py_max alpha eval_score in
      if score_leb beta alpha' then Ok (max_eval', best_move')
      else ab_max_loop rest b depth alpha' beta max_eval' best_move'
  end.

Fixpoint ab_min_loop (cells : list move) (b : board) (depth : Z)
    (alpha beta min_eval : score) (best_move : option move) : result value :=
  match cells with
  | [] => Ok (min_eval, best_move)
  | (row, col) :: rest =>
      do b1 <- setc b row col (Mark X);
      do (eval_score, _) <- rec b1 (depth + 1) true alpha beta;
      let min_eval' := if score_ltb eval_score min_eval then eval_score else min_eval in
      let best_move' := if score_ltb eval_score min_eval then Some (row, col) else best_move in
      let beta' := py_min beta eval_score in
      if score_leb beta' alpha then Ok (min_eval', best_move')
      else ab_min_loop rest b depth alpha beta' min_eval' best_move'
  end.
End PureLoops.

Fixpoint alphabeta (fuel : nat) (b : board) (depth : Z) (is_maximizing : bool)
    (alpha beta : score) : result value :=
  match fuel with
  | 0%nat => Raise OutOfFuel
  | S fuel' =>
      do wo <- check_winner b O;
      if wo then Ok (Fin (10 - depth), None) else
      do wx <- check_winner b X;
      if wx then Ok (Fin (depth - 10), None) else
      do cells <- get_empty_cells b;
      match cells with
      | [] => Ok (Fin 0, None)
      | _ =>
          if is_maximizing then
            do cells <- get_empty_cells b;
            ab_max_loop (alphabeta fuel') cells b depth alpha beta NegInf None
          else
            do cells <- get_empty_cells b;
            ab_min_loop (alphabeta fuel') cells b depth alpha beta PosInf None
      end
  end.

(** ** Plain minimax

    The reference the pruned search is compared with: the same terminal
    scores, every blank cell tried in row-major order, no window and no
    cut-off, the running best replaced only by a strictly better score. *)

Section PlainLoops.
Variable rec : board -> Z -> bool -> result value.

Fixpoint plain_max_loop (cells : list move) (b : board) (depth : Z)
    (max_eval : score) (best_move : option move) : result value :=
  match cells with
  | [] => Ok (max_eval, best_move)
  | (row, col) :: rest =>
      do b1 <- setc b row col (Mark O);
      do (eval_score, _) <- rec b1 (depth + 1) false;
      if score_ltb max_eval eval_score
      then plain_max_loop rest b depth eval_score (Some (row, col))
      else plain_max_loop rest b depth max_eval best_move
  end.

Fixpoint plain_min_loop (cells : list move) (b : board) (depth : Z)
    (min_eval : score) (best_move : option move) : result value :=
  match cells with
  | [] => Ok (min_eval, best_move)
  | (row, col) :: rest =>
      do b1 <- setc b row col (Mark X);
      do (eval_score, _) <- rec b1 (depth + 1) true;
      if score_ltb eval_score min_eval
      then plain_min_loop rest b depth eval_score (Some (row, col))
      else plain_min_loop rest b depth min_eval best_move
  end.
End PlainLoops.

Fixpoint plain_minimax (fuel : nat) (b : board) (depth : Z)
    (is_maximizing : bool) : result value :=
  match fuel with
  | 0%nat => Raise OutOfFuel
  | S fuel' =>
      do wo <- check_winner b O;
      if wo then Ok (Fin (10 - depth), None) else
      do wx <- check_winner b X;
      if wx then Ok (Fin (depth - 10), None) else
      do cells <- get_empty_cells b;
      match cells with
      | [] => Ok (Fin 0, None)
      | _ =>
          if is_maximizing
          then plain_max_loop (plain_minimax fuel') cells b depth NegInf None
          else plain_min_loop (plain_minimax fuel') cells b depth PosInf None
      end
  end.

(** The order on scores as propositions. *)
Definition slt (a b : score) : Prop := score_ltb a b = true.
Definition sle (a b : score) : Prop := score_leb a b = true.

(** What a search with window [(alpha, beta)] may return when the plain
    search returns [(t, mvt)]: the exact result inside the window, and a
    bound on the same side as [t] outside of it. *)
Definition within (alpha beta : score) (r t : value) : Prop :=
  (sle t.1 alpha -> sle t.1 r.1 /\ sle r.1 alpha) /\
  (slt alpha t.1 -> slt t.1 beta -> r = t) /\
  (sle beta t.1 -> sle beta r.1 /\ sle r.1 t.1).

(** [g'] is [g] with other search counters. *)
Definition frame (g g' : game) : Prop :=
  g' = with_counters (nodes_explored g') (depth_reached g') g.

(** The lifting of a pure result to the object: the same value, in a state
    that differs from the start state in the counters only. *)
Definition lifts (g : game) (p : result value) (r : result search_result) : Prop :=
  match p with
  | Ok (s, mv) => exists g', r = Ok (s, mv, g') /\ frame g g'
  | Raise e => r = Raise e
  end.

(** ** The calls of a search

    The search once more on the board alone, returning with the value the
    depth of every [minimax] call it makes, in the order of the calls: the
    call itself first, then the calls of each child tried before the cut-off.
    The counters are not part of it. *)

Definition traced : Type := (score * option move * list Z)%type.

Section TraceLoops.
Variable rec : board -> Z -> bool -> score -> score -> result traced.

Fixpoint calls_max_loop (cells : list move) (b : board) (depth : Z)
    (alpha beta max_eval : score) (best_move : option move) : result traced :=
  match cells with
  | [] => Ok (max_eval, best_move, [])
  | (row, col) :: rest =>
      do b1 <- setc b row col (Mark O);
      do (eval_score, _, child) <- rec b1 (depth + 1) false alpha beta;
      let max_eval' := if score_ltb max_eval eval_score then eval_score else max_eval in
      let best_move' := if score_ltb max_eval eval_score then Some (row, col) else best_move in
      let alpha' := py_max alpha eval_score in
      if score_leb beta alpha' then Ok (max_eval', best_move', child)
      else
        do (s, mv, others) <- calls_max_loop rest b depth alpha' beta max_eval' best_move';
        Ok (s, mv, child ++ others)
  end.

Fixpoint calls_min_loop (cells : list move) (b : board) (depth : Z)
    (alpha beta min_eval : score) (best_move : option move) : result traced :=
  match cells with
  | [] => Ok (min_eval, best_move, [])
  | (row, col) :: rest =>
      do b1 <- setc b row col (Mark X);
      do (eval_score, _, child) <- rec b1 (depth + 1) true alpha beta;
      let min_eval' := if score_ltb eval_score min_eval then eval_score else min_eval in
      let best_move' := if score_ltb eval_score min_eval then Some (row, col) else best_move in
      let beta' := py_min beta eval_score in
      if score_leb beta' alpha then Ok (min_eval', best_move', child)
      else
        do (s, mv, others) <- calls_min_loop rest b depth alpha beta' min_eval' best_move';
        Ok (s, mv, child ++ others)
  end.
End TraceLoops.

Fixpoint minimax_calls (fuel : nat) (b : board) (depth : Z) (is_maximizing : bool)
    (alpha beta : score) : result traced :=
  match fuel with
  | 0%nat => Raise OutOfFuel
  | S fuel' =>
      do wo <- check_winner b O;
      if wo then Ok (Fin (10 - depth), None, [depth]) else
      do wx <- check_winner b X;
      if wx then Ok (Fin (depth - 10), None, [depth]) else
      do cells <- get_empty_cells b;
      match cells with
      | [] => Ok (Fin 0, None, [depth])
      | _ =>
          do (s, mv, below) <-
            (if is_maximizing then
               calls_max_loop (minimax_calls fuel') cells b depth alpha beta NegInf None
             else
               calls_min_loop (minimax_calls fuel') cells b depth alpha beta PosInf None);
          Ok (s, mv, depth :: below)
      end
  end.

(** The result [r] of the object's search is the traced result [p], in the
    state [g] with one node counted for every call of the trace and the depth
    counter raised to the depth of each call in turn. *)
Definition counted (g : game) (p : result traced) (r : result search_result) : Prop :=
  match p with
  | Ok (s, mv, calls) =>
      r = Ok (s, mv,
              with_counters (nodes_explored g + Z.of_nat (length calls))
                (fold_left Z.max calls (depth_reached g)) g)
  | Raise e => r = Raise e
  end.

(** ** Well-formed boards *)

(** The shape every board of a [TicTacToe] object has: [BOARD_SIZE] rows of
    [BOARD_SIZE] cells. *)
Definition wf_board (b : board) : bool :=
  (Z.of_nat (length b) =? BOARD_SIZE) &&
  forallb (fun r => Z.of_nat (length r) =? BOARD_SIZE) b.

Fixpoint count_cells (l : list cell) : nat :=
  match l with
  | [] => 0
  | c :: l' => (if cell_eqb c Blank then 1 else 0) + count_cells l'
  end.

(** The number of blank cells of a board. *)
Definition count_blank (b : board) : nat := count_cells (concat b).

Definition in_range (row col : Z) : Prop :=
  0 <= row < BOARD_SIZE /\ 0 <= col < BOARD_SIZE.

(** What one search adds to the counters: [k] nodes, and a depth [D]; both
    are the same whatever the counters hold when the search starts. *)
Definition adds (g : game) (s : score) (mv : option move) (k D : Z)
    (f : game -> result search_result) : Prop :=
  forall n0 d0,
    f (with_counters n0 d0 g) = Ok (s, mv, with_counters (n0 + k) (Z.max d0 D) g).

(** ** The board as nine cells

    On the boards of the game the scans of [check_winner] and
    [get_empty_cells] and the writes of the search are functions of the nine
    cells.  [grid_search] is [alphabeta] on that representation
    ([alphabeta_grid] below); it is what the scenarios are evaluated with. *)

Inductive grid :=
| Grid (c00 c01 c02 c10 c11 c12 c20 c21 c22 : cell).

Definition to_board (t : grid) : board :=
  let 'Grid c00 c01 c02 c10 c11 c12 c20 c21 c22 := t in
  [[c00; c01; c02]; [c10; c11; c12]; [c20; c21; c22]].

Definition of_board (b : board) : option grid :=
  match b with
  | [[c00; c01; c02]; [c10; c11; c12]; [c20; c21; c22]] =>
      Some (Grid c00 c01 c02 c10 c11 c12 c20 c21 c22)
  | _ => None
  end.

Definition line (p : player) (a b c : cell) : bool :=
  cell_eqb a (Mark p) && cell_eqb b (Mark p) && cell_eqb c (Mark p).

Definition grid_winner (t : grid) (p : player) : bool :=
  let 'Grid c00 c01 c02 c10 c11 c12 c20 c21 c22 := t in
  line p c00 c01 c02 || line p c00 c10 c20 ||
  line p c10 c11 c12 || line p c01 c11 c21 ||
  line p c20 c21 c22 || line p c02 c12 c22 ||
  line p c00 c11 c22 || line p c02 c11 c20.

Definition blank_at (c : cell) (m : move) (rest : list move) : list move :=
  if cell_eqb c Blank then m :: rest else rest.

Definition grid_empty_cells (t : grid) : list move :=
  let 'Grid c00 c01 c02 c10 c11 c12 c20 c21 c22 := t in
  blank_at c00 (0, 0) (blank_at c01 (0, 1) (blank_at c02 (0, 2)
  (blank_at c10 (1, 0) (blank_at c11 (1, 1) (blank_at c12 (1, 2)
  (blank_at c20 (2, 0) (blank_at c21 (2, 1) (blank_at c22 (2, 2) [])))))))).

Definition grid_set (t : grid) (m : move) (v : cell) : grid :=
  let 'Grid c00 c01 c02 c10 c11 c12 c20 c21 c22 := t in
  match m with
  | (0, 0) => Grid v c01 c02 c10 c11 c12 c20 c21 c22
  | (0, 1) => Grid c00 v c02 c10 c11 c12 c20 c21 c22
  | (0, 2) => Grid c00 c01 v c10 c11 c12 c20 c21 c22
  | (1, 0) => Grid c00 c01 c02 v c11 c12 c20 c21 c22
  | (1, 1) => Grid c00 c01 c02 c10 v c12 c20 c21 c22
  | (1, 2) => Grid c00 c01 c02 c10 c11 v c20 c21 c22
  | (2, 0) => Grid c00 c01 c02 c10 c11 c12 v c21 c22
  | (2, 1) => Grid c00 c01 c02 c10 c11 c12 c20 v c22
  | (2, 2) => Grid c00 c01 c02 c10 c11 c12 c20 c21 v
  | _ => t
  end.

Section GridLoops.
Variable rec : grid -> Z -> bool -> score -> score -> option value.

Fixpoint grid_max_loop (cells : list move) (t : grid) (depth : Z)
    (alpha beta max_eval : score) (best_move : option move) : option value :=
  match cells with
  | [] => Some (max_eval, best_move)
  | m :: rest =>
      match rec (grid_set t m (Mark O)) (depth + 1) false alpha beta with
      | None => None
      | Some (eval_score, _) =>
          let max_eval' := if score_ltb max_eval eval_score then eval_score else max_eval in
          let best_move' := if score_ltb max_eval eval_score then Some m else best_move in
          let alpha' := py_max alpha eval_score in
          if score_leb beta alpha' then Some (max_eval', best_move')
          else grid_max_loop rest t depth alpha' beta max_eval' best_move'
      end
  end.

Fixpoint grid_min_loop (cells : list move) (t : grid) (depth : Z)
    (alpha beta min_eval : score) (best_move : option move) : option value :=
  match cells with
  | [] => Some (min_eval, best_move)
  | m :: rest =>
      match rec (grid_set t m (Mark X)) (depth + 1) true alpha beta with
      | None => None
      | Some (eval_score, _) =>
          let min_eval' := if score_ltb eval_score min_eval then eval_score else min_eval in
          let best_move' := if score_ltb eval_score min_eval then Some m else best_move in
          let beta' := py_min beta eval_score in
          if score_leb beta' alpha then Some (min_eval', best_move')
          else grid_min_loop rest t depth alpha beta' min_eval' best_move'
      end
  end.
End GridLoops.

Fixpoint grid_search (fuel : nat) (t : grid) (depth : Z) (is_maximizing : bool)
    (alpha beta : score) : option value :=
  match fuel with
  | 0%nat => None
  | S fuel' =>
      if grid_winner t O then Some (Fin (10 - depth), None) else
      if grid_winner t X then Some (Fin (depth - 10), None) else
      match grid_empty_cells t with
      | [] => Some (Fin 0, None)
      | cells =>
          if is_maximizing
          then grid_max_loop (grid_search fuel') cells t depth alpha beta NegInf None
          else grid_min_loop (grid_search fuel') cells t depth alpha beta PosInf None
      end
  end.

Definition of_option {A} (o : option A) : result A :=
  match o with Some a => Ok a | None => Raise OutOfFuel end.

(** [self_play] with the search replaced by [grid_search]; the counters are
    not touched. *)
Fixpoint grid_self_play (turns fuel : nat) (g : game) : option game :=
  if game_over g then Some g else
  match turns with
  | 0%nat => None
  | S turns' =>
      match of_board (gboard g) with
      | None => None
      | Some t =>
          match grid_search fuel t 0 (is_maximizer (current_player g)) NegInf PosInf with
          | Some (_, Some (row, col)) =>
              match make_move g row col (current_player g) with
              | Ok (true, g2) => grid_self_play turns' fuel g2
              | _ => None
              end
          | _ => None
          end
      end
  end.

(** ** Positions used in the scenarios *)

(** Row 0 is [X, X, blank], every other cell is blank. *)
Definition two_in_row : board :=
  [[Mark X; Mark X; Blank]; [Blank; Blank; Blank]; [Blank; Blank; Blank]].

(** The position the optimal game from the empty board ends in. *)
Definition drawn_game : game :=
  mkGame [[Mark X; Mark X; Mark O]; [Mark O; Mark O; Mark X]; [Mark X; Mark O; Mark X]]
    O true None None 9 9 0 0 1 0 0.

(** ['X'] has played the centre. *)
Definition after_centre : game :=
  mkGame [[Blank; Blank; Blank]; [Blank; Mark X; Blank]; [Blank; Blank; Blank]]
    O false None None 1 9 0 0 0 0 0.

(** ['X'] to move with two in row 0, ['O'] with two in row 1. *)
Definition before_win : game :=
  mkGame [[Mark X; Mark X; Blank]; [Mark O; Mark O; Blank]; [Blank; Blank; Blank]]
    X false None None 4 9 0 0 0 0 0.

(** ** Lines and cells of the board *)

(** The eight lines of the board: for each [i] row [i] and column [i], then
    the two diagonals. *)
Definition winning_lines : list (list move) :=
  [ [(0, 0); (0, 1); (0, 2)]; [(0, 0); (1, 0); (2, 0)];
    [(1, 0); (1, 1); (1, 2)]; [(0, 1); (1, 1); (2, 1)];
    [(2, 0); (2, 1); (2, 2)]; [(0, 2); (1, 2); (2, 2)];
    [(0, 0); (1, 1); (2, 2)]; [(0, 2); (1, 1); (2, 0)] ].

(** Every cell of line [l] holds the mark of [p]. *)
Definition on_line (b : board) (p : player) (l : list move) : Prop :=
  forall m, In m l -> getc b m.1 m.2 = Ok (Mark p).

(** The cells in row-major order. *)
Definition all_cells : list move :=
  flat_map (fun i => map (fun j => (i, j)) (range BOARD_SIZE)) (range BOARD_SIZE).

Definition blank_cell (b : board) (m : move) : bool :=
  match getc b m.1 m.2 with
  | Ok Blank => true
  | _ => false
  end.

Definition with_player (p : player) (g : game) : game :=
  mkGame (gboard g) p (game_over g) (winner g) (last_ai_move g)
    (moves_made g) (max_moves g) (player_wins g) (ai_wins g) (draws g)
    (nodes_explored g) (depth_reached g).

Definition with_last_ai_move (mv : option move) (g : game) : game :=
  mkGame (gboard g) (current_player g) (game_over g) (winner g) mv
    (moves_made g) (max_moves g) (player_wins g) (ai_wins g) (draws g)
    (nodes_explored g) (depth_reached g).

(** ** States of a [TicTacToe] object

    The states an object can be in: the state [__init__] builds, and from a
    state the states left by a call of [reset_game], of [make_move] with any
    coordinates and one of the two marks ['X'] and ['O'] the program plays,
    of [minimax] or of [get_ai_move] that returns, and by the assignment to
    [last_ai_move] that [main] makes. *)
Inductive reachable : game -> Prop :=
| reach_init : reachable init_game
| reach_reset g : reachable g -> reachable (reset_game g)
| reach_make_move g row col p ok g' :
    reachable g -> make_move g row col p = Ok (ok, g') -> reachable g'
| reach_minimax g fuel d m alpha beta s mv g' :
    reachable g -> minimax fuel g d m alpha beta = Ok (s, mv, g') -> reachable g'
| reach_get_ai_move g fuel mv g' :
    reachable g -> get_ai_move fuel g = Ok (mv, g') -> reachable g'
| reach_last_ai_move g mv :
    reachable g -> reachable (with_last_ai_move mv g).

(** The recorded outcome agrees with the board. *)
Definition consistent (g : game) : Prop :=
  wf_board (gboard g) = true /\
  max_moves g = 9 /\
  moves_made g = 9 - Z.of_nat (count_blank (gboard g)) /\
  0 <= player_wins g /\ 0 <= ai_wins g /\ 0 <= draws g /\
  match winner g with
  | Some p =>
      game_over g = true /\
      check_winner (gboard g) p = Ok true /\
      check_winner (gboard g) (other p) = Ok false
  | None =>
      check_winner (gboard g) X = Ok false /\
      check_winner (gboard g) O = Ok false /\
      (game_over g = true <-> count_blank (gboard g) = 0%nat)
  end.

(** ** The event loop of [main]

    The part of [main] that drives the game: the window geometry, the two
    buttons and the handling of one event.  Drawing does not touch the game
    and is left out, and so is the timer, which only decides when
    [USEREVENT] events arrive: the loop is modelled for every sequence of
    events. *)

Definition WIDTH : Z := 600.
Definition HEIGHT : Z := 700.
Definition CELL_SIZE : Z := WIDTH / BOARD_SIZE.

Record rect := Rect { rleft : Z; rtop : Z; rwidth : Z; rheight : Z }.

(** pygame's [Rect.collidepoint]: the point is inside the rectangle, its
    right and bottom edges excluded. *)
Definition collidepoint (r : rect) (pos : Z * Z) : bool :=
  (rleft r <=? pos.1) && (pos.1 <? rleft r + rwidth r) &&
  (rtop r <=? pos.2) && (pos.2 <? rtop r + rheight r).

Definition reset_rect : rect := Rect (WIDTH - 150) (HEIGHT - 90) 140 40.
Definition quit_rect : rect := Rect (WIDTH - 150) (HEIGHT - 40) 140 40.

Inductive event := QUIT | MOUSEBUTTONDOWN | USEREVENT | OTHER_EVENT.

(** The local variables of [main] that outlive a frame. *)
Record app := App { app_game : game; ai_thinking : bool; running : bool }.

(** [main] before its loop. *)
Definition app_start : app := App init_game false true.

(** The body of [for event in pygame.event.get()], with [mouse_pos] as read
    at the start of the frame. *)
Definition handle_event (fuel : nat) (mouse_pos : Z * Z) (st : app) (ev : event)
    : result app :=
  let game := app_game st in
  match ev with
  | QUIT => Ok (App game (ai_thinking st) false)
  | MOUSEBUTTONDOWN =>
      if collidepoint reset_rect mouse_pos then
        Ok (App (reset_game game) false (running st))
      else if collidepoint quit_rect mouse_pos then
        Ok (App game (ai_thinking st) false)
      else if negb (game_over game) && player_eqb (current_player game) X
              && negb (ai_thinking st) then
        let col := mouse_pos.1 / CELL_SIZE in
        let row := mouse_pos.2 / CELL_SIZE in
        if (0 <=? row) && (row <? BOARD_SIZE) && (0 <=? col) && (col <? BOARD_SIZE) then
          do (ok, game') <- make_move game row col X;
          if ok then Ok (App game' true (running st))
          else Ok (App game' (ai_thinking st) (running st))
        else Ok st
      else Ok st
  | USEREVENT =>
      if ai_thinking st then
        if negb (game_over game) && player_eqb (current_player game) O then
          do (mv, game1) <- get_ai_move fuel game;
          do (_, game2) <- make_move game1 mv.1 mv.2 O;
          Ok (App (with_last_ai_move (Some mv) game2) false (running st))
        else Ok (App game false (running st))
      else Ok st
  | OTHER_EVENT => Ok st
  end.

(** One pass of the [for] loop over the events of a frame. *)
Fixpoint handle_events (fuel : nat) (mouse_pos : Z * Z) (events : list event)
    (st : app) : result app :=
  match events with
  | [] => Ok st
  | ev :: rest =>
      do st' <- handle_event fuel mouse_pos st ev;
      handle_events fuel mouse_pos rest st'
  end.

(** [while running:] over the frames, each with the mouse position and the
    events it reads. *)
Fixpoint main_loop (fuel : nat) (frames : list (Z * Z * list event)) (st : app)
    : result app :=
  match frames with
  | [] => Ok st
  | (mouse_pos, events) :: rest =>
      if running st then
        do st' <- handle_events fuel mouse_pos events st;
        main_loop fuel rest st'
      else Ok st
  end.

(** ** Every line of play of the human

    [human_cannot_win n t] tries every blank cell for ['X'] on [t], answers
    each with the cell the search returns for ['O'], and goes on for up to
    [n] rounds; it is [true] when no line of play gives ['X'] a line. *)

Definition ai_reply_safe (rec : grid -> bool) (t1 : grid) : bool :=
  match grid_search 10 t1 0 true NegInf PosInf with
  | Some (_, Some mv) =>
      let t2 := grid_set t1 mv (Mark O) in
      if grid_winner t2 O then true else
      match grid_empty_cells t2 with
      | [] => true
      | _ => rec t2
      end
  | _ => false
  end.

Fixpoint human_cannot_win (n : nat) (t : grid) : bool :=
  match n with
  | 0%nat => false
  | S n' =>
      forallb (fun m =>
        let t1 := grid_set t m (Mark X) in
        if grid_winner t1 X then false else
        match grid_empty_cells t1 with
        | [] => true
        | _ => ai_reply_safe (human_cannot_win n') t1
        end) (grid_empty_cells t)
  end.

Definition blank_grid : grid :=
  Grid Blank Blank Blank Blank Blank Blank Blank Blank Blank.

Fixpoint count_marks (p : player) (l : list cell) : nat :=
  match l with
  | [] => 0
  | c :: l' => (if cell_eqb c (Mark p) then 1 else 0) + count_marks p l'
  end.

(** The number of marks of [p] on a board. *)
Definition count_mark (p : player) (b : board) : nat := count_marks p (concat b).

(** The marks were placed in turn, ['X'] first, and [current_player] names
    the player whose mark comes next. *)
Definition marks_alternate (g : game) : Prop :=
  match current_player g with
  | X => count_mark X (gboard g) = count_mark O (gboard g)
  | O => count_mark X (gboard g) = S (count_mark O (gboard g))
  end.

(** The cell recorded as the last automated move holds an ['O']. *)
Definition last_move_marked (g : game) : Prop :=
  match last_ai_move g with
  | Some mv => in_range mv.1 mv.2 /\ getc (gboard g) mv.1 mv.2 = Ok (Mark O)
  | None => True
  end.

(** What the event loop keeps true. *)
Definition app_safe (st : app) : Prop :=
  let g := app_game st in
  consistent g /\
  marks_alternate g /\
  last_move_marked g /\
  player_wins g = 0 /\
  winner g <> Some X /\
  (game_over g = false -> current_player g = X ->
   exists n t, gboard g = to_board t /\ human_cannot_win n t = true) /\
  (game_over g = false -> current_player g = O -> ai_thinking st = true ->
   exists n t, gboard g = to_board t /\
               ai_reply_safe (human_cannot_win n) t = true).

(** The status line [draw_board] renders. *)
Definition status_text (g : game) : String.string :=
  if game_over g then
    match winner g with
    | Some w =>
        String.append (if player_eqb w X then "You" else "AI")%string " Wins!"%string
    | None => "It's a Draw!"%string
    end
  else if player_eqb (current_player g) X then "Your Turn (X)"%string
  else "AI Thinking..."%string.

Definition tallies (g : game) : Z := player_wins g + ai_wins g + draws g.

(** * Properties *)

(** ** The result monad *)

Lemma bind_ok {A B} (m : result A) (f : A -> result B) (y : B) :
  bind m f = Ok y -> exists x, m = Ok x /\ f x = Ok y.
Proof. destruct m as [x|e]; simpl; [eauto | discriminate]. Qed.

Ltac bind_inv H :=
  let x := fresh "x" in
  let Hx := fresh "H" x in
  apply bind_ok in H; destruct H as (x & Hx & H).

(** ** Python indexing *)

Lemma py_index_lt {A} (l : list A) i k :
  py_index l i = Some k -> (k < length l)%nat.
Proof.
  unfold py_index. intros H.
  destruct ((0 <=? i) && (i <? Z.of_nat (length l))) eqn:E1.
  - inversion H; subst. apply andb_true_iff in E1 as [?%Z.leb_le ?%Z.ltb_lt]. lia.
  - destruct ((- Z.of_nat (length l) <=? i) && (i <? 0)) eqn:E2; [|discriminate].
    inversion H; subst. apply andb_true_iff in E2 as [?%Z.leb_le ?%Z.ltb_lt]. lia.
Qed.

Lemma py_index_insert {A} (l : list A) k v i :
  py_index (<[k := v]> l) i = py_index l i.
Proof. unfold py_index. by rewrite length_insert. Qed.

Lemma py_get_ok {A} (l : list A) i x :
  py_get l i = Ok x -> exists k, py_index l i = Some k /\ l !! k = Some x.
Proof.
  unfold py_get. destruct (py_index l i) as [k|]; [|discriminate].
  destruct (l !! k) eqn:E; [|discriminate]. intros [= ->]. eauto.
Qed.

Lemma py_get_nonneg {A} (l : list A) i :
  0 <= i < Z.of_nat (length l) ->
  exists x, py_get l i = Ok x /\ l !! Z.to_nat i = Some x.
Proof.
  intros Hi. unfold py_get, py_index.
  replace ((0 <=? i) && (i <? Z.of_nat (length l))) with true
    by (symmetry; apply andb_true_iff; split; [apply Z.leb_le|apply Z.ltb_lt]; lia).
  destruct (lookup_lt_is_Some_2 l (Z.to_nat i)) as [x Hx]; [lia|].
  rewrite Hx. eauto.
Qed.

(** Reading a cell, overwriting it and writing the old value back gives the
    board one started from: the rollback of the search. *)
Lemma setc_rollback b row col x v b' :
  getc b row col = Ok x ->
  setc b row col v = Ok b' ->
  setc b' row col x = Ok b.
Proof.
  unfold getc, setc. intros Hg Hs.
  bind_inv Hg. rewrite Hx0 in Hs. simpl in Hs.
  apply py_get_ok in Hx0 as (k1 & Hk1 & Hr).
  apply py_get_ok in Hg as (k2 & Hk2 & Hc).
  unfold py_set in Hs. rewrite Hk2 in Hs. simpl in Hs.
  rewrite Hk1 in Hs. inversion Hs; subst b'; clear Hs.
  unfold py_get at 1. rewrite py_index_insert, Hk1.
  rewrite list_lookup_insert_eq by (by eapply py_index_lt). simpl.
  unfold py_set. rewrite py_index_insert, Hk2. simpl.
  rewrite py_index_insert, Hk1.
  rewrite !list_insert_insert_eq, (list_insert_id x0 k2 x) by done.
  by rewrite list_insert_id.
Qed.

Lemma getc_setc_ok b row col x v :
  getc b row col = Ok x -> exists b', setc b row col v = Ok b'.
Proof.
  unfold getc, setc. intros Hg. bind_inv Hg. rewrite Hx0. simpl.
  apply py_get_ok in Hx0 as (k1 & Hk1 & Hr).
  apply py_get_ok in Hg as (k2 & Hk2 & Hc).
  unfold py_set. rewrite Hk2. simpl. rewrite Hk1. eauto.
Qed.

(** ** Shape of well-formed boards *)

Lemma wf_board_shape b :
  wf_board b = true ->
  exists c00 c01 c02 c10 c11 c12 c20 c21 c22,
    b = [[c00; c01; c02]; [c10; c11; c12]; [c20; c21; c22]].
Proof.
  unfold wf_board, BOARD_SIZE. intros H.
  apply andb_true_iff in H as [Hl Hr]. apply Z.eqb_eq in Hl.
  destruct b as [|r0 [|r1 [|r2 [|]]]]; simpl in Hl; try lia.
  simpl in Hr. rewrite !andb_true_iff, !Z.eqb_eq in Hr.
  destruct Hr as (H0 & H1 & H2 & _).
  destruct r0 as [|? [|? [|? [|]]]]; simpl in H0; try lia.
  destruct r1 as [|? [|? [|? [|]]]]; simpl in H1; try lia.
  destruct r2 as [|? [|? [|? [|]]]]; simpl in H2; try lia.
  by repeat eexists.
Qed.

Lemma in_range_cases row col :
  in_range row col ->
  (row = 0 \/ row = 1 \/ row = 2) /\ (col = 0 \/ col = 1 \/ col = 2).
Proof. unfold in_range, BOARD_SIZE. lia. Qed.

Ltac shape b H :=
  let E := fresh "E" in
  destruct (wf_board_shape b H) as (?&?&?&?&?&?&?&?&?&E);
  try rewrite E in *; subst b.

Ltac range_cases H :=
  apply in_range_cases in H;
  destruct H as [[?|[?|?]] [?|[?|?]]]; subst.

Lemma wf_getc b row col :
  wf_board b = true -> in_range row col -> exists x, getc b row col = Ok x.
Proof. intros Hwf Hr. shape b Hwf. range_cases Hr; by eexists. Qed.

Lemma wf_setc b row col v :
  wf_board b = true -> in_range row col ->
  exists b', setc b row col v = Ok b' /\ wf_board b' = true /\
             getc b' row col = Ok v.
Proof. intros Hwf Hr. shape b Hwf. range_cases Hr; by eexists. Qed.

Lemma setc_wf b row col v b' :
  wf_board b = true -> in_range row col -> setc b row col v = Ok b' ->
  wf_board b' = true.
Proof.
  intros Hwf Hr Hs. destruct (wf_setc b row col v Hwf Hr) as (b2 & E & Hwf2 & _).
  congruence.
Qed.

(** A negative index in [[-3, 0)] addresses the cell three further on. *)
Lemma wf_wrap b row col :
  wf_board b = true -> - BOARD_SIZE <= row < 0 -> - BOARD_SIZE <= col < 0 ->
  getc b row col = getc b (row + BOARD_SIZE) (col + BOARD_SIZE) /\
  forall v, setc b row col v = setc b (row + BOARD_SIZE) (col + BOARD_SIZE) v.
Proof.
  intros Hwf Hr Hc. shape b Hwf. unfold BOARD_SIZE in *.
  assert (row = -3 \/ row = -2 \/ row = -1) as [?|[?|?]] by lia;
  assert (col = -3 \/ col = -2 \/ col = -1) as [?|[?|?]] by lia; by subst.
Qed.

Lemma count_blank_setc b row col p b' :
  wf_board b = true -> in_range row col ->
  getc b row col = Ok Blank -> setc b row col (Mark p) = Ok b' ->
  S (count_blank b') = count_blank b.
Proof.
  intros Hwf Hr Hg Hs. shape b Hwf.
  range_cases Hr; inversion Hg; subst; inversion Hs; subst;
    unfold count_blank; simpl; lia.
Qed.

(** ** Totality of the board scans on well-formed boards *)

Lemma all_of_total f js :
  Forall (fun j => exists t, f j = Ok t) js -> exists t, all_of f js = Ok t.
Proof.
  induction 1 as [|j js [t Ht] _ IH]; simpl; [eauto|].
  rewrite Ht. simpl. destruct t; eauto.
Qed.

Lemma cell_is_total b p row col :
  wf_board b = true -> in_range row col -> exists t, cell_is b p row col = Ok t.
Proof.
  intros Hwf Hr. unfold cell_is.
  destruct (wf_getc b row col Hwf Hr) as [x ->]. simpl. eauto.
Qed.

Lemma Forall_range (P : Z -> Prop) :
  (forall i, 0 <= i < BOARD_SIZE -> P i) -> Forall P (range BOARD_SIZE).
Proof.
  intros H. unfold range, BOARD_SIZE in *. simpl.
  repeat constructor; apply H; lia.
Qed.

Lemma check_winner_total b p :
  wf_board b = true -> exists w, check_winner b p = Ok w.
Proof.
  intros Hwf.
  assert (Hline : forall f : Z -> Z * Z,
            (forall j, 0 <= j < BOARD_SIZE -> in_range (f j).1 (f j).2) ->
            exists t, all_of (fun j => cell_is b p (f j).1 (f j).2)
                        (range BOARD_SIZE) = Ok t).
  { intros f Hf. apply all_of_total, Forall_range. intros j Hj.
    by apply cell_is_total, Hf. }
  assert (Hrc : forall idxs, Forall (fun i => 0 <= i < BOARD_SIZE) idxs ->
            exists t, rows_cols b p idxs = Ok t).
  { induction 1 as [|i idxs Hi _ [t IH]]; simpl; [eauto|].
    destruct (Hline (fun j => (i, j))) as [r Er]; [by split|].
    simpl in Er. rewrite Er. simpl. destruct r; [eauto|].
    destruct (Hline (fun j => (j, i))) as [c Ec]; [by split|].
    simpl in Ec. rewrite Ec. simpl. destruct c; eauto. }
  unfold check_winner.
  destruct (Hrc (range BOARD_SIZE)) as [rc ->]; [by apply Forall_range|].
  simpl. destruct rc; [eauto|].
  destruct (Hline (fun i => (i, i))) as [d1 E1]; [by split|].
  simpl in E1. rewrite E1. simpl. destruct d1; [eauto|].
  destruct (Hline (fun i => (i, BOARD_SIZE - 1 - i))) as [d2 E2].
  { intros j Hj. unfold in_range, BOARD_SIZE in *. simpl. lia. }
  simpl in E2. rewrite E2. simpl. destruct d2; eauto.
Qed.

(** ** Blank cells *)

Lemma cell_eqb_blank c : cell_eqb c Blank = true <-> c = Blank.
Proof. destruct c; simpl; split; congruence. Qed.

Lemma empty_in_row_blank b i js l :
  empty_in_row b i js = Ok l ->
  Forall (fun m : move => m.1 = i /\ In m.2 js /\ getc b m.1 m.2 = Ok Blank) l.
Proof.
  revert l. induction js as [|j js IH]; simpl; intros l H.
  - inversion H. constructor.
  - bind_inv H. bind_inv H. inversion H; subst l; clear H.
    specialize (IH _ Hx0).
    assert (Forall (fun m : move => m.1 = i /\ (j = m.2 \/ In m.2 js) /\
                                    getc b m.1 m.2 = Ok Blank) x0) as IH'.
    { eapply Forall_impl; [exact IH|]. simpl. intros m (?&?&?). auto. }
    destruct (cell_eqb x Blank) eqn:E; [|done].
    constructor; [|done]. simpl. apply cell_eqb_blank in E. subst x. auto.
Qed.

Lemma get_empty_cells_blank b l :
  get_empty_cells b = Ok l ->
  Forall (fun m : move => in_range m.1 m.2 /\ getc b m.1 m.2 = Ok Blank) l.
Proof.
  unfold get_empty_cells.
  assert (Hin : forall j, In j (range BOARD_SIZE) -> 0 <= j < BOARD_SIZE).
  { unfold range, BOARD_SIZE. simpl. lia. }
  assert (H : forall idxs l, (forall i, In i idxs -> 0 <= i < BOARD_SIZE) ->
            empty_in_rows b idxs = Ok l ->
            Forall (fun m : move => in_range m.1 m.2 /\
                                    getc b m.1 m.2 = Ok Blank) l).
  { clear l. induction idxs as [|i idxs IH]; intros l Hi H;
      cbn [empty_in_rows] in H.
    - inversion H. constructor.
    - bind_inv H. bind_inv H. inversion H; subst l; clear H.
      apply Forall_app. split.
      + eapply Forall_impl; [eapply empty_in_row_blank; eauto|].
        cbv beta. intros m (E & Hj & Hg). split; [|done].
        split; [rewrite E; apply Hi; by left | apply Hin, Hj].
      + apply IH; [|done]. intros i' Hi'. apply Hi. by right. }
  apply H, Hin.
Qed.

Lemma get_empty_cells_total b :
  wf_board b = true -> exists l, get_empty_cells b = Ok l.
Proof. intros Hwf. shape b Hwf. eexists. reflexivity. Qed.

(** ** [minimax] computes [alphabeta] and restores the board *)

Lemma frame_refl g : frame g g.
Proof. by destruct g. Qed.

Lemma frame_board g g' : frame g g' -> gboard g' = gboard g.
Proof. intros ->. reflexivity. Qed.

Lemma frame_with_counters g n d : frame g (with_counters n d g).
Proof. reflexivity. Qed.

Lemma frame_trans g g1 g2 : frame g g1 -> frame g1 g2 -> frame g g2.
Proof. unfold frame. intros -> ->. reflexivity. Qed.

Lemma frame_rollback g b1 g1 :
  frame (with_board b1 g) g1 -> frame g (with_board (gboard g) g1).
Proof. unfold frame. intros ->. by destruct g. Qed.

Lemma lifts_frame g g1 p r : frame g g1 -> lifts g1 p r -> lifts g p r.
Proof.
  intros F. destruct p as [[s mv]|e]; simpl; [|done].
  intros (g' & -> & F'). exists g'. split; [done|]. by eapply frame_trans.
Qed.

Section Lifting.
Variable n : nat.
Hypothesis IHn : forall g d m alpha beta,
  lifts g (alphabeta n (gboard g) d m alpha beta) (minimax n g d m alpha beta).

Lemma max_loop_lifts cells : forall g d alpha beta max_eval best,
  Forall (fun m : move => getc (gboard g) m.1 m.2 = Ok Blank) cells ->
  lifts g (ab_max_loop (alphabeta n) cells (gboard g) d alpha beta max_eval best)
          (max_loop (minimax n) cells g d alpha beta max_eval best).
Proof.
  induction cells as [|[row col] rest IHc]; intros g d alpha beta me best Hc; simpl.
  - exists g. split; [done | apply frame_refl].
  - inversion Hc as [|? ? Hg Hrest]; subst. simpl in Hg.
    destruct (setc (gboard g) row col (Mark O)) as [b1|e] eqn:Es; simpl; [|done].
    pose proof (IHn (with_board b1 g) (d + 1) false alpha beta) as IH.
    simpl in IH.
    destruct (alphabeta n b1 (d + 1) false alpha beta) as [[ev mv']|e]; simpl in *.
    + destruct IH as (g1 & -> & F1). simpl.
      rewrite (frame_board _ _ F1). simpl.
      rewrite (setc_rollback _ _ _ _ _ _ Hg Es). simpl.
      apply frame_rollback in F1.
      destruct (score_leb beta (py_max alpha ev)).
      * eexists. split; [reflexivity | done].
      * eapply lifts_frame; [exact F1|].
        specialize (IHc (with_board (gboard g) g1)). simpl in IHc.
        by apply IHc.
    + by rewrite IH.
Qed.

Lemma min_loop_lifts cells : forall g d alpha beta min_eval best,
  Forall (fun m : move => getc (gboard g) m.1 m.2 = Ok Blank) cells ->
  lifts g (ab_min_loop (alphabeta n) cells (gboard g) d alpha beta min_eval best)
          (min_loop (minimax n) cells g d alpha beta min_eval best).
Proof.
  induction cells as [|[row col] rest IHc]; intros g d alpha beta me best Hc; simpl.
  - exists g. split; [done | apply frame_refl].
  - inversion Hc as [|? ? Hg Hrest]; subst. simpl in Hg.
    destruct (setc (gboard g) row col (Mark X)) as [b1|e] eqn:Es; simpl; [|done].
    pose proof (IHn (with_board b1 g) (d + 1) true alpha beta) as IH.
    simpl in IH.
    destruct (alphabeta n b1 (d + 1) true alpha beta) as [[ev mv']|e]; simpl in *.
    + destruct IH as (g1 & -> & F1). simpl.
      rewrite (frame_board _ _ F1). simpl.
      rewrite (setc_rollback _ _ _ _ _ _ Hg Es). simpl.
      apply frame_rollback in F1.
      destruct (score_leb (py_min beta ev) alpha).
      * eexists. split; [reflexivity | done].
      * eapply lifts_frame; [exact F1|].
        specialize (IHc (with_board (gboard g) g1)). simpl in IHc.
        by apply IHc.
    + by rewrite IH.
Qed.
End Lifting.

(** [minimax] returns what [alphabeta] returns on the board, raises what it
    raises, and changes nothing but the two counters. *)
Lemma minimax_alphabeta n : forall g d m alpha beta,
  lifts g (alphabeta n (gboard g) d m alpha beta) (minimax n g d m alpha beta).
Proof.
  induction n as [|n IH]; intros g d m alpha beta; [reflexivity|].
  cbn [minimax alphabeta].
  set (g0 := with_counters _ _ g).
  assert (F0 : frame g g0) by apply frame_with_counters.
  change (gboard g0) with (gboard g).
  destruct (check_winner (gboard g) O) as [[|]|e]; simpl; [by eexists | | done].
  destruct (check_winner (gboard g) X) as [[|]|e]; simpl; [by eexists | | done].
  destruct (get_empty_cells (gboard g)) as [cells|e] eqn:Ec; simpl; [|done].
  apply get_empty_cells_blank in Ec.
  assert (Hc : Forall (fun m : move => getc (gboard g0) m.1 m.2 = Ok Blank) cells).
  { eapply Forall_impl; [exact Ec|]. by intros ? [_ ?]. }
  destruct cells as [|c cells]; [by eexists|].
  destruct m; eapply lifts_frame; try exact F0.
  - by apply (max_loop_lifts n IH (c :: cells) g0).
  - by apply (min_loop_lifts n IH (c :: cells) g0).
Qed.

(** ** Pruning does not change the result *)

Lemma slt_spec a b :
  slt a b <->
  match a, b with
  | NegInf, NegInf => False
  | NegInf, _ => True
  | Fin x, Fin y => x < y
  | Fin _, PosInf => True
  | _, _ => False
  end.
Proof.
  unfold slt. destruct a, b; simpl; rewrite ?Z.ltb_lt; intuition discriminate.
Qed.

Lemma sle_spec a b :
  sle a b <->
  match a, b with
  | NegInf, _ => True
  | Fin x, Fin y => x <= y
  | _, PosInf => True
  | _, _ => False
  end.
Proof.
  unfold sle, score_leb. destruct a, b; simpl;
    rewrite ?negb_true_iff, ?Z.ltb_ge; intuition discriminate.
Qed.

Lemma score_ltb_false a b : score_ltb a b = false <-> sle b a.
Proof. unfold sle, score_leb. by rewrite negb_true_iff. Qed.

Lemma score_leb_false a b : score_leb a b = false <-> slt b a.
Proof. unfold slt, score_leb. by rewrite negb_false_iff. Qed.

(** Turn the tests of the code into order facts. *)
Ltac order_prep :=
  repeat match goal with t : value |- _ => destruct t end;
  unfold within, py_max, py_min in *; cbn [fst snd] in *;
  repeat match goal with
  | H : score_ltb ?a ?b = true |- _ => change (slt a b) in H
  | H : score_leb ?a ?b = true |- _ => change (sle a b) in H
  | H : score_ltb _ _ = false |- _ => apply score_ltb_false in H
  | H : score_leb _ _ = false |- _ => apply score_leb_false in H
  end.

Ltac order_case :=
  repeat match goal with
  | |- context [score_ltb ?a ?b] =>
      let E := fresh in destruct (score_ltb a b) eqn:E;
      [change (slt a b) in E | apply score_ltb_false in E]
  | H : context [score_ltb ?a ?b] |- _ =>
      let E := fresh in destruct (score_ltb a b) eqn:E;
      [change (slt a b) in E | apply score_ltb_false in E]
  end.

Ltac order_leaf :=
  first [ done | lia
        | simplify_eq; first [ done | lia | (f_equal; lia) | (repeat split; lia) ] ].

(** Decide a goal about the order of scores by cases on the scores. *)
Ltac order_done :=
  repeat match goal with
  | H : _ = Ok _ |- _ => clear H
  | H : slt _ _ |- _ => apply slt_spec in H
  | H : sle _ _ |- _ => apply sle_spec in H
  end;
  rewrite ?slt_spec, ?sle_spec;
  repeat (match goal with x : score |- _ => destruct x end;
          cbn iota beta in *; try contradiction);
  first [ order_leaf | intuition order_leaf ].

Lemma plain_max_loop_ge rec cells : forall b d pm pbest t,
  plain_max_loop rec cells b d pm pbest = Ok t -> sle pm t.1.
Proof.
  induction cells as [|[row col] rest IHc]; intros b d pm pbest t H; simpl in H.
  - inversion H; subst. simpl. order_done.
  - bind_inv H. bind_inv H. destruct x0 as [tv tm].
    destruct (score_ltb pm tv) eqn:E; apply IHc in H; order_prep; order_done.
Qed.

Lemma plain_min_loop_le rec cells : forall b d pm pbest t,
  plain_min_loop rec cells b d pm pbest = Ok t -> sle t.1 pm.
Proof.
  induction cells as [|[row col] rest IHc]; intros b d pm pbest t H; simpl in H.
  - inversion H; subst. simpl. order_done.
  - bind_inv H. bind_inv H. destruct x0 as [tv tm].
    destruct (score_ltb tv pm) eqn:E; apply IHc in H; order_prep; order_done.
Qed.

(** The three cases of [within], as facts. *)
Lemma within_cases alpha beta r t :
  within alpha beta r t ->
  (sle t.1 alpha /\ sle t.1 r.1 /\ sle r.1 alpha) \/
  (slt alpha t.1 /\ slt t.1 beta /\ r = t) \/
  (sle beta t.1 /\ sle beta r.1 /\ sle r.1 t.1).
Proof.
  intros (H1 & H2 & H3).
  destruct (score_ltb alpha t.1) eqn:E1;
    [|apply score_ltb_false in E1; left; tauto].
  destruct (score_ltb t.1 beta) eqn:E2;
    [|apply score_ltb_false in E2; right; right; tauto].
  right; left. auto.
Qed.

Section Pruning.
Variable n : nat.
Hypothesis IHn : forall b d m alpha beta t,
  slt alpha beta -> plain_minimax n b d m = Ok t ->
  exists r, alphabeta n b d m alpha beta = Ok r /\ within alpha beta r t.

Variables (b : board) (d : Z).

(** The maximizing loop, entered with window [(alpha0, beta)].  Either no
    child has exceeded [alpha0] yet, or the running best of the pruned loop
    is the running best of the plain loop. *)
Lemma ab_max_loop_within alpha0 beta cells :
  forall alpha max_eval best pm pbest t,
  slt alpha beta ->
  (alpha = alpha0 /\ sle pm max_eval /\ sle max_eval alpha0) \/
  (slt alpha0 pm /\ max_eval = pm /\ alpha = pm /\ best = pbest) ->
  plain_max_loop (plain_minimax n) cells b d pm pbest = Ok t ->
  exists r, ab_max_loop (alphabeta n) cells b d alpha beta max_eval best = Ok r /\
            within alpha0 beta r t.
Proof.
  induction cells as [|[row col] rest IHc];
    intros alpha me best pm pbest t Hab Hinv Hp; simpl in *.
  - inversion Hp; subst t. eexists. split; [reflexivity|].
    destruct Hinv as [(-> & ? & ?)|(? & -> & -> & ->)]; order_prep; order_done.
  - bind_inv Hp. rewrite Hx. simpl. bind_inv Hp. destruct x0 as [tv tm].
    destruct (IHn x (d + 1) false alpha beta (tv, tm) Hab Hx0)
      as ([ev em] & -> & Hw). simpl.
    apply within_cases in Hw. cbn [fst snd] in Hw.
    destruct (score_leb beta (py_max alpha ev)) eqn:Cut.
    + eexists. split; [reflexivity|]. destruct t as [ts tmv].
      assert (sle tv ts).
      { destruct (score_ltb pm tv) eqn:E; apply plain_max_loop_ge in Hp;
          order_prep; order_done. }
      clear Hp.
      destruct Hw as [(?&?&?)|[(?&?&?)|(?&?&?)]]; simplify_eq;
      destruct Hinv as [(-> & ? & ?)|(? & -> & -> & ->)]; order_prep; order_case.
      all: clear IHc IHn; order_done.
    + destruct (score_ltb pm tv) eqn:Hlt;
      (eapply IHc; [| |exact Hp]);
      destruct Hw as [(?&?&?)|[(?&?&?)|(?&?&?)]]; simplify_eq;
      destruct Hinv as [(-> & ? & ?)|(? & -> & -> & ->)]; order_prep; order_case.
      all: clear IHc IHn; order_done.
Qed.

(** The minimizing loop, symmetrically, entered with window
    [(alpha, beta0)]. *)
Lemma ab_min_loop_within alpha beta0 cells :
  forall beta min_eval best pm pbest t,
  slt alpha beta ->
  (beta = beta0 /\ sle min_eval pm /\ sle beta0 min_eval) \/
  (slt pm beta0 /\ min_eval = pm /\ beta = pm /\ best = pbest) ->
  plain_min_loop (plain_minimax n) cells b d pm pbest = Ok t ->
  exists r, ab_min_loop (alphabeta n) cells b d alpha beta min_eval best = Ok r /\
            within alpha beta0 r t.
Proof.
  induction cells as [|[row col] rest IHc];
    intros beta me best pm pbest t Hab Hinv Hp; simpl in *.
  - inversion Hp; subst t. eexists. split; [reflexivity|].
    destruct Hinv as [(-> & ? & ?)|(? & -> & -> & ->)]; order_prep; order_done.
  - bind_inv Hp. rewrite Hx. simpl. bind_inv Hp. destruct x0 as [tv tm].
    destruct (IHn x (d + 1) true alpha beta (tv, tm) Hab Hx0)
      as ([ev em] & -> & Hw). simpl.
    apply within_cases in Hw. cbn [fst snd] in Hw.
    destruct (score_leb (py_min beta ev) alpha) eqn:Cut.
    + eexists. split; [reflexivity|]. destruct t as [ts tmv].
      assert (sle ts tv).
      { destruct (score_ltb tv pm) eqn:E; apply plain_min_loop_le in Hp;
          order_prep; order_done. }
      clear Hp.
      destruct Hw as [(?&?&?)|[(?&?&?)|(?&?&?)]]; simplify_eq;
      destruct Hinv as [(-> & ? & ?)|(? & -> & -> & ->)]; order_prep; order_case.
      all: clear IHc IHn; order_done.
    + destruct (score_ltb tv pm) eqn:Hlt;
      (eapply IHc; [| |exact Hp]);
      destruct Hw as [(?&?&?)|[(?&?&?)|(?&?&?)]]; simplify_eq;
      destruct Hinv as [(-> & ? & ?)|(? & -> & -> & ->)]; order_prep; order_case.
      all: clear IHc IHn; order_done.
Qed.
End Pruning.

Lemma sle_refl a : sle a a.
Proof. apply sle_spec. destruct a; [done | lia | done]. Qed.

Lemma within_refl alpha beta t : within alpha beta t t.
Proof. unfold within. auto using sle_refl. Qed.

(** The pruned search against the plain one, for every window. *)
Lemma alphabeta_within n : forall b d m alpha beta t,
  slt alpha beta -> plain_minimax n b d m = Ok t ->
  exists r, alphabeta n b d m alpha beta = Ok r /\ within alpha beta r t.
Proof.
  induction n as [|n IH]; intros b d m alpha beta t Hab H; [discriminate|].
  cbn [plain_minimax alphabeta] in *.
  bind_inv H. rewrite Hx. simpl.
  destruct x; [inversion H; subst; eauto using within_refl|].
  bind_inv H. rewrite Hx0. simpl.
  destruct x; [inversion H; subst; eauto using within_refl|].
  bind_inv H. rewrite Hx1. simpl.
  destruct x as [|c cells]; [inversion H; subst; eauto using within_refl|].
  destruct m.
  - eapply ab_max_loop_within; eauto.
    left. repeat split; by destruct alpha.
  - eapply ab_min_loop_within; eauto.
    left. repeat split; by destruct beta.
Qed.

(** ** The plain search returns a number, and returns *)

Lemma plain_max_loop_fin rec cells : forall b d pm pbest t,
  (forall b' d' m' t', rec b' d' m' = Ok t' -> exists z, t'.1 = Fin z) ->
  (exists z, pm = Fin z) \/ (pm = NegInf /\ cells <> []) ->
  plain_max_loop rec cells b d pm pbest = Ok t -> exists z, t.1 = Fin z.
Proof.
  induction cells as [|[row col] rest IHc]; intros b d pm pbest t Hrec Hpm H;
    simpl in H.
  - inversion H; subst. simpl. destruct Hpm as [Hz|[_ Hne]]; [exact Hz | done].
  - bind_inv H. bind_inv H. destruct x0 as [tv tm].
    destruct (Hrec _ _ _ _ Hx0) as [z Hz]. simpl in Hz. subst tv.
    destruct (score_ltb pm (Fin z)) eqn:E.
    + eapply IHc; [exact Hrec | | exact H]. eauto.
    + eapply IHc; [exact Hrec | | exact H]. left.
      destruct Hpm as [Hz|[-> _]]; [exact Hz | discriminate].
Qed.

Lemma plain_min_loop_fin rec cells : forall b d pm pbest t,
  (forall b' d' m' t', rec b' d' m' = Ok t' -> exists z, t'.1 = Fin z) ->
  (exists z, pm = Fin z) \/ (pm = PosInf /\ cells <> []) ->
  plain_min_loop rec cells b d pm pbest = Ok t -> exists z, t.1 = Fin z.
Proof.
  induction cells as [|[row col] rest IHc]; intros b d pm pbest t Hrec Hpm H;
    simpl in H.
  - inversion H; subst. simpl. destruct Hpm as [Hz|[_ Hne]]; [exact Hz | done].
  - bind_inv H. bind_inv H. destruct x0 as [tv tm].
    destruct (Hrec _ _ _ _ Hx0) as [z Hz]. simpl in Hz. subst tv.
    destruct (score_ltb (Fin z) pm) eqn:E.
    + eapply IHc; [exact Hrec | | exact H]. eauto.
    + eapply IHc; [exact Hrec | | exact H]. left.
      destruct Hpm as [Hz|[-> _]]; [exact Hz | discriminate].
Qed.

Lemma plain_minimax_fin n : forall b d m t,
  plain_minimax n b d m = Ok t -> exists z, t.1 = Fin z.
Proof.
  induction n as [|n IH]; intros b d m t H; [discriminate|].
  cbn [plain_minimax] in H.
  bind_inv H. destruct x; [inversion H; subst; simpl; eauto|].
  bind_inv H. destruct x; [inversion H; subst; simpl; eauto|].
  bind_inv H. destruct x as [|c cells]; [inversion H; subst; simpl; eauto|].
  destruct m.
  - eapply plain_max_loop_fin; [exact IH | | exact H]. by right.
  - eapply plain_min_loop_fin; [exact IH | | exact H]. by right.
Qed.

Section PlainTotal.
Variable n : nat.
Hypothesis IHn : forall b d m,
  wf_board b = true -> (count_blank b < n)%nat ->
  exists t, plain_minimax n b d m = Ok t.

Variables (b : board) (d : Z).
Hypothesis Hwf : wf_board b = true.
Hypothesis Hcount : (count_blank b <= n)%nat.

Lemma plain_max_loop_total cells : forall pm pbest,
  Forall (fun m : move => in_range m.1 m.2 /\ getc b m.1 m.2 = Ok Blank) cells ->
  exists t, plain_max_loop (plain_minimax n) cells b d pm pbest = Ok t.
Proof.
  induction cells as [|[row col] rest IHc]; intros pm pbest Hc; simpl; [eauto|].
  inversion Hc as [|? ? [Hr Hg] Hrest]; subst. simpl in Hr, Hg.
  destruct (wf_setc b row col (Mark O) Hwf Hr) as (b1 & Hs & Hwf1 & _).
  rewrite Hs. simpl.
  pose proof (count_blank_setc _ _ _ _ _ Hwf Hr Hg Hs) as Hcnt.
  destruct (IHn b1 (d + 1) false Hwf1) as [[tv tm] ->]; [lia|]. simpl.
  destruct (score_ltb pm tv); by apply IHc.
Qed.

Lemma plain_min_loop_total cells : forall pm pbest,
  Forall (fun m : move => in_range m.1 m.2 /\ getc b m.1 m.2 = Ok Blank) cells ->
  exists t, plain_min_loop (plain_minimax n) cells b d pm pbest = Ok t.
Proof.
  induction cells as [|[row col] rest IHc]; intros pm pbest Hc; simpl; [eauto|].
  inversion Hc as [|? ? [Hr Hg] Hrest]; subst. simpl in Hr, Hg.
  destruct (wf_setc b row col (Mark X) Hwf Hr) as (b1 & Hs & Hwf1 & _).
  rewrite Hs. simpl.
  pose proof (count_blank_setc _ _ _ _ _ Hwf Hr Hg Hs) as Hcnt.
  destruct (IHn b1 (d + 1) true Hwf1) as [[tv tm] ->]; [lia|]. simpl.
  destruct (score_ltb tv pm); by apply IHc.
Qed.
End PlainTotal.

Lemma plain_minimax_total n : forall b d m,
  wf_board b = true -> (count_blank b < n)%nat ->
  exists t, plain_minimax n b d m = Ok t.
Proof.
  induction n as [|n IH]; intros b d m Hwf Hn; [lia|].
  cbn [plain_minimax].
  destruct (check_winner_total b O Hwf) as [wo ->]. simpl.
  destruct wo; [eauto|].
  destruct (check_winner_total b X Hwf) as [wx ->]. simpl.
  destruct wx; [eauto|].
  destruct (get_empty_cells_total b Hwf) as [cells Hc]. rewrite Hc. simpl.
  apply get_empty_cells_blank in Hc.
  destruct cells as [|c cells]; [eauto|].
  destruct m.
  - apply plain_max_loop_total; auto. lia.
  - apply plain_min_loop_total; auto. lia.
Qed.

(** ** The search counters *)

Lemma with_counters_id g : with_counters (nodes_explored g) (depth_reached g) g = g.
Proof. by destruct g. Qed.

Lemma with_board_rollback g b1 n d :
  with_board (gboard g) (with_counters n d (with_board b1 g)) = with_counters n d g.
Proof. by destruct g. Qed.

Section Counting.
Variable n : nat.
Hypothesis IHn : forall g d m alpha beta s mv g',
  minimax n g d m alpha beta = Ok (s, mv, g') ->
  exists k D, 1 <= k /\ d <= D /\
    adds g s mv k D (fun g => minimax n g d m alpha beta).

Lemma max_loop_counts cells : forall g d alpha beta max_eval best s mv g',
  Forall (fun m : move => getc (gboard g) m.1 m.2 = Ok Blank) cells ->
  max_loop (minimax n) cells g d alpha beta max_eval best = Ok (s, mv, g') ->
  exists k D, 0 <= k /\ d <= D /\
    forall n0 d0, d <= d0 ->
      max_loop (minimax n) cells (with_counters n0 d0 g) d alpha beta max_eval best
      = Ok (s, mv, with_counters (n0 + k) (Z.max d0 D) g).
Proof.
  induction cells as [|[row col] rest IHc];
    intros g d alpha beta me best s mv g' Hc H; simpl in H.
  - inversion H; subst. exists 0, d. repeat split; [lia..|].
    intros n0 d0 Hd. simpl. by rewrite Z.add_0_r, Z.max_l.
  - inversion Hc as [|? ? Hg Hrest]; subst. simpl in Hg.
    bind_inv H. bind_inv H. destruct x0 as [[ev em] g1].
    destruct (IHn _ _ _ _ _ _ _ _ Hx0) as (k1 & D1 & Hk1 & HD1 & Hadd).
    unfold adds in Hadd. cbv beta in Hadd.
    pose proof (Hadd (nodes_explored g) (depth_reached g)) as Hg1.
    change (with_counters (nodes_explored g) (depth_reached g) (with_board x g))
      with (with_board x g) in Hg1.
    rewrite Hx0 in Hg1. inversion Hg1 as [Eg1]. clear Hg1.
    rewrite Eg1 in H. simpl in H.
    rewrite (setc_rollback _ _ _ _ _ _ Hg Hx) in H. simpl in H.
    rewrite with_board_rollback in H.
    assert (Hstep : forall n0 d0,
      max_loop (minimax n) ((row, col) :: rest) (with_counters n0 d0 g) d
        alpha beta me best =
      (let max_eval' := if score_ltb me ev then ev else me in
       let best' := if score_ltb me ev then Some (row, col) else best in
       let alpha' := py_max alpha ev in
       let g2 := with_counters (n0 + k1) (Z.max d0 D1) g in
       if score_leb beta alpha' then Ok (max_eval', best', g2)
       else max_loop (minimax n) rest g2 d alpha' beta max_eval' best')).
    { intros n0 d0. simpl. rewrite Hx. simpl.
      change (with_board x (with_counters n0 d0 g))
        with (with_counters n0 d0 (with_board x g)).
      rewrite Hadd. simpl.
      rewrite (setc_rollback _ _ _ _ _ _ Hg Hx). simpl.
      by rewrite with_board_rollback. }
    destruct (score_leb beta (py_max alpha ev)) eqn:Cut.
    + inversion H; subst. exists k1, D1. repeat split; [lia..|].
      intros n0 d0 Hd. rewrite Hstep. simpl. by rewrite Cut.
    + apply IHc in H; [|done].
      destruct H as (k2 & D2 & Hk2 & HD2 & Hrest2).
      exists (k1 + k2), (Z.max D1 D2). repeat split; [lia..|].
      intros n0 d0 Hd. rewrite Hstep. simpl. rewrite Cut.
      etransitivity; [apply (Hrest2 (n0 + k1) (Z.max d0 D1)); lia|].
      by rewrite Z.add_assoc, Z.max_assoc.
Qed.

Lemma min_loop_counts cells : forall g d alpha beta min_eval best s mv g',
  Forall (fun m : move => getc (gboard g) m.1 m.2 = Ok Blank) cells ->
  min_loop (minimax n) cells g d alpha beta min_eval best = Ok (s, mv, g') ->
  exists k D, 0 <= k /\ d <= D /\
    forall n0 d0, d <= d0 ->
      min_loop (minimax n) cells (with_counters n0 d0 g) d alpha beta min_eval best
      = Ok (s, mv, with_counters (n0 + k) (Z.max d0 D) g).
Proof.
  induction cells as [|[row col] rest IHc];
    intros g d alpha beta me best s mv g' Hc H; simpl in H.
  - inversion H; subst. exists 0, d. repeat split; [lia..|].
    intros n0 d0 Hd. simpl. by rewrite Z.add_0_r, Z.max_l.
  - inversion Hc as [|? ? Hg Hrest]; subst. simpl in Hg.
    bind_inv H. bind_inv H. destruct x0 as [[ev em] g1].
    destruct (IHn _ _ _ _ _ _ _ _ Hx0) as (k1 & D1 & Hk1 & HD1 & Hadd).
    unfold adds in Hadd. cbv beta in Hadd.
    pose proof (Hadd (nodes_explored g) (depth_reached g)) as Hg1.
    change (with_counters (nodes_explored g) (depth_reached g) (with_board x g))
      with (with_board x g) in Hg1.
    rewrite Hx0 in Hg1. inversion Hg1 as [Eg1]. clear Hg1.
    rewrite Eg1 in H. simpl in H.
    rewrite (setc_rollback _ _ _ _ _ _ Hg Hx) in H. simpl in H.
    rewrite with_board_rollback in H.
    assert (Hstep : forall n0 d0,
      min_loop (minimax n) ((row, col) :: rest) (with_counters n0 d0 g) d
        alpha beta me best =
      (let min_eval' := if score_ltb ev me then ev else me in
       let best' := if score_ltb ev me then Some (row, col) else best in
       let beta' := py_min beta ev in
       let g2 := with_counters (n0 + k1) (Z.max d0 D1) g in
       if score_leb beta' alpha then Ok (min_eval', best', g2)
       else min_loop (minimax n) rest g2 d alpha beta' min_eval' best')).
    { intros n0 d0. simpl. rewrite Hx. simpl.
      change (with_board x (with_counters n0 d0 g))
        with (with_counters n0 d0 (with_board x g)).
      rewrite Hadd. simpl.
      rewrite (setc_rollback _ _ _ _ _ _ Hg Hx). simpl.
      by rewrite with_board_rollback. }
    destruct (score_leb (py_min beta ev) alpha) eqn:Cut.
    + inversion H; subst. exists k1, D1. repeat split; [lia..|].
      intros n0 d0 Hd. rewrite Hstep. simpl. by rewrite Cut.
    + apply IHc in H; [|done].
      destruct H as (k2 & D2 & Hk2 & HD2 & Hrest2).
      exists (k1 + k2), (Z.max D1 D2). repeat split; [lia..|].
      intros n0 d0 Hd. rewrite Hstep. simpl. rewrite Cut.
      etransitivity; [apply (Hrest2 (n0 + k1) (Z.max d0 D1)); lia|].
      by rewrite Z.add_assoc, Z.max_assoc.
Qed.
End Counting.

Lemma minimax_counts n : forall g d m alpha beta s mv g',
  minimax n g d m alpha beta = Ok (s, mv, g') ->
  exists k D, 1 <= k /\ d <= D /\
    adds g s mv k D (fun g => minimax n g d m alpha beta).
Proof.
  induction n as [|n IH]; intros g d m alpha beta s mv g' H; [discriminate|].
  cbn [minimax] in H. cbn [minimax]. unfold adds.
  set (g0 := with_counters _ _ g) in H.
  change (gboard g0) with (gboard g) in H.
  assert (Hleaf : forall v : score, exists k D, 1 <= k /\ d <= D /\
            forall n0 d0 : Z,
              Ok (v, @None move,
                  with_counters (n0 + 1) (Z.max d0 d) (with_counters n0 d0 g)) =
              Ok (v, None, with_counters (n0 + k) (Z.max d0 D) g)).
  { intros v. exists 1, d. repeat split; lia. }
  bind_inv H. simpl. rewrite Hx. simpl.
  destruct x; [inversion H; subst; apply Hleaf|].
  bind_inv H. rewrite Hx0. simpl.
  destruct x; [inversion H; subst; apply Hleaf|].
  bind_inv H. rewrite Hx1. simpl.
  pose proof (get_empty_cells_blank _ _ Hx1) as Hc.
  assert (Hc0 : Forall (fun m : move => getc (gboard g0) m.1 m.2 = Ok Blank) x).
  { eapply Forall_impl; [exact Hc|]. by intros ? [_ ?]. }
  destruct x as [|c cells]; [inversion H; subst; apply Hleaf|].
  rewrite Hx1 in H. simpl in H.
  destruct m.
  - destruct (max_loop_counts n IH _ _ _ _ _ _ _ _ _ _ Hc0 H)
      as (k2 & D2 & Hk2 & HD2 & Hloop).
    exists (1 + k2), (Z.max d D2). repeat split; [lia..|].
    intros n0 d0.
    etransitivity; [apply (Hloop (n0 + 1) (Z.max d0 d)); lia|].
    by rewrite Z.add_assoc, Z.max_assoc.
  - destruct (min_loop_counts n IH _ _ _ _ _ _ _ _ _ _ Hc0 H)
      as (k2 & D2 & Hk2 & HD2 & Hloop).
    exists (1 + k2), (Z.max d D2). repeat split; [lia..|].
    intros n0 d0.
    etransitivity; [apply (Hloop (n0 + 1) (Z.max d0 d)); lia|].
    by rewrite Z.add_assoc, Z.max_assoc.
Qed.

(** ** The counters follow the calls *)

Section Tracing.
Variable n : nat.
Hypothesis IHn : forall g d m alpha beta,
  counted g (minimax_calls n (gboard g) d m alpha beta) (minimax n g d m alpha beta).

Lemma max_loop_counted cells : forall g d alpha beta max_eval best,
  Forall (fun m : move => getc (gboard g) m.1 m.2 = Ok Blank) cells ->
  counted g (calls_max_loop (minimax_calls n) cells (gboard g) d alpha beta max_eval best)
            (max_loop (minimax n) cells g d alpha beta max_eval best).
Proof.
  induction cells as [|[row col] rest IHc]; intros g d alpha beta me best Hc; simpl.
  - by rewrite Z.add_0_r, with_counters_id.
  - inversion Hc as [|? ? Hg Hrest]; subst. simpl in Hg.
    destruct (setc (gboard g) row col (Mark O)) as [b1|e] eqn:Es; simpl; [|done].
    pose proof (IHn (with_board b1 g) (d + 1) false alpha beta) as IH.
    simpl in IH.
    destruct (minimax_calls n b1 (d + 1) false alpha beta) as [[[ev mv'] child]|e];
      simpl in *; [|by rewrite IH].
    rewrite IH. simpl.
    rewrite (setc_rollback _ _ _ _ _ _ Hg Es). simpl.
    rewrite with_board_rollback.
    destruct (score_leb beta (py_max alpha ev)); [done|].
    specialize (IHc (with_counters (nodes_explored g + Z.of_nat (length child))
                       (fold_left Z.max child (depth_reached g)) g)
                  d (py_max alpha ev) beta
                  (if score_ltb me ev then ev else me)
                  (if score_ltb me ev then Some (row, col) else best) Hrest).
    simpl in IHc.
    destruct (calls_max_loop _ rest _ _ _ _ _ _) as [[[s mv] others]|e];
      simpl in *; [|done].
    etransitivity; [exact IHc|].
    by rewrite length_app, Nat2Z.inj_add, Z.add_assoc, fold_left_app.
Qed.

Lemma min_loop_counted cells : forall g d alpha beta min_eval best,
  Forall (fun m : move => getc (gboard g) m.1 m.2 = Ok Blank) cells ->
  counted g (calls_min_loop (minimax_calls n) cells (gboard g) d alpha beta min_eval best)
            (min_loop (minimax n) cells g d alpha beta min_eval best).
Proof.
  induction cells as [|[row col] rest IHc]; intros g d alpha beta me best Hc; simpl.
  - by rewrite Z.add_0_r, with_counters_id.
  - inversion Hc as [|? ? Hg Hrest]; subst. simpl in Hg.
    destruct (setc (gboard g) row col (Mark X)) as [b1|e] eqn:Es; simpl; [|done].
    pose proof (IHn (with_board b1 g) (d + 1) true alpha beta) as IH.
    simpl in IH.
    destruct (minimax_calls n b1 (d + 1) true alpha beta) as [[[ev mv'] child]|e];
      simpl in *; [|by rewrite IH].
    rewrite IH. simpl.
    rewrite (setc_rollback _ _ _ _ _ _ Hg Es). simpl.
    rewrite with_board_rollback.
    destruct (score_leb (py_min beta ev) alpha); [done|].
    specialize (IHc (with_counters (nodes_explored g + Z.of_nat (length child))
                       (fold_left Z.max child (depth_reached g)) g)
                  d alpha (py_min beta ev)
                  (if score_ltb ev me then ev else me)
                  (if score_ltb ev me then Some (row, col) else best) Hrest).
    simpl in IHc.
    destruct (calls_min_loop _ rest _ _ _ _ _ _) as [[[s mv] others]|e];
      simpl in *; [|done].
    etransitivity; [exact IHc|].
    by rewrite length_app, Nat2Z.inj_add, Z.add_assoc, fold_left_app.
Qed.
End Tracing.

(** [minimax] returns the value of the traced search, and its counters are
    the old ones advanced once for every call of the trace. *)
Lemma minimax_counted n : forall g d m alpha beta,
  counted g (minimax_calls n (gboard g) d m alpha beta) (minimax n g d m alpha beta).
Proof.
  induction n as [|n IH]; intros g d m alpha beta; [reflexivity|].
  cbn [minimax minimax_calls].
  set (g0 := with_counters _ _ g).
  change (gboard g0) with (gboard g).
  destruct (check_winner (gboard g) O) as [[|]|e]; simpl; [done | | done].
  destruct (check_winner (gboard g) X) as [[|]|e]; simpl; [done | | done].
  destruct (get_empty_cells (gboard g)) as [cells|e] eqn:Ec; simpl; [|done].
  apply get_empty_cells_blank in Ec.
  assert (Hc : Forall (fun m : move => getc (gboard g0) m.1 m.2 = Ok Blank) cells).
  { eapply Forall_impl; [exact Ec|]. by intros ? [_ ?]. }
  destruct cells as [|c cells]; [done|].
  destruct m.
  - pose proof (max_loop_counted n IH (c :: cells) g0 d alpha beta NegInf None Hc) as L.
    change (gboard g0) with (gboard g) in L.
    destruct (calls_max_loop _ (c :: cells) _ _ _ _ _ _) as [[[s mv] below]|e];
      simpl in *; [|done].
    rewrite L. unfold g0, with_counters. simpl. do 3 f_equal. lia.
  - pose proof (min_loop_counted n IH (c :: cells) g0 d alpha beta PosInf None Hc) as L.
    change (gboard g0) with (gboard g) in L.
    destruct (calls_min_loop _ (c :: cells) _ _ _ _ _ _) as [[[s mv] below]|e];
      simpl in *; [|done].
    rewrite L. unfold g0, with_counters. simpl. do 3 f_equal. lia.
Qed.

(** The trace of a search starts with the call itself, and every call it
    lists after that is deeper. *)
Section TraceShape.
Variable n : nat.
Hypothesis IHn : forall b d m alpha beta s mv calls,
  minimax_calls n b d m alpha beta = Ok (s, mv, calls) ->
  exists below, calls = d :: below /\ Forall (fun x => d < x) below.

Lemma calls_max_loop_deeper cells : forall b d alpha beta max_eval best s mv calls,
  calls_max_loop (minimax_calls n) cells b d alpha beta max_eval best = Ok (s, mv, calls) ->
  Forall (fun x => d < x) calls.
Proof.
  induction cells as [|[row col] rest IHc];
    intros b d alpha beta me best s mv calls H; simpl in H.
  - inversion H. constructor.
  - bind_inv H. bind_inv H. destruct x0 as [[ev em] child].
    destruct (IHn _ _ _ _ _ _ _ _ Hx0) as (below & -> & Hb).
    assert (Hchild : Forall (fun x => d < x) (d + 1 :: below)).
    { constructor; [lia|]. eapply Forall_impl; [exact Hb|]. simpl. lia. }
    destruct (score_leb beta (py_max alpha ev)); [by inversion H; subst|].
    bind_inv H. destruct x0 as [[s' mv'] others]. inversion H; subst.
    change (Forall (fun x => d < x) ((d + 1 :: below) ++ others)).
    apply Forall_app. split; [done|]. by eapply IHc.
Qed.

Lemma calls_min_loop_deeper cells : forall b d alpha beta min_eval best s mv calls,
  calls_min_loop (minimax_calls n) cells b d alpha beta min_eval best = Ok (s, mv, calls) ->
  Forall (fun x => d < x) calls.
Proof.
  induction cells as [|[row col] rest IHc];
    intros b d alpha beta me best s mv calls H; simpl in H.
  - inversion H. constructor.
  - bind_inv H. bind_inv H. destruct x0 as [[ev em] child].
    destruct (IHn _ _ _ _ _ _ _ _ Hx0) as (below & -> & Hb).
    assert (Hchild : Forall (fun x => d < x) (d + 1 :: below)).
    { constructor; [lia|]. eapply Forall_impl; [exact Hb|]. simpl. lia. }
    destruct (score_leb (py_min beta ev) alpha); [by inversion H; subst|].
    bind_inv H. destruct x0 as [[s' mv'] others]. inversion H; subst.
    change (Forall (fun x => d < x) ((d + 1 :: below) ++ others)).
    apply Forall_app. split; [done|]. by eapply IHc.
Qed.
End TraceShape.

Lemma minimax_calls_shape n : forall b d m alpha beta s mv calls,
  minimax_calls n b d m alpha beta = Ok (s, mv, calls) ->
  exists below, calls = d :: below /\ Forall (fun x => d < x) below.
Proof.
  induction n as [|n IH]; intros b d m alpha beta s mv calls H; [discriminate|].
  cbn [minimax_calls] in H.
  bind_inv H. destruct x; [inversion H; by exists []|].
  bind_inv H. destruct x; [inversion H; by exists []|].
  bind_inv H. destruct x as [|c cells]; [inversion H; by exists []|].
  bind_inv H. destruct x as [[s' mv'] below]. inversion H; subst.
  exists below. split; [done|].
  destruct m.
  - by eapply (calls_max_loop_deeper n IH).
  - by eapply (calls_min_loop_deeper n IH).
Qed.

(** What [minimax] does to the counters, from any start values. *)
Lemma minimax_counted_from n g d m alpha beta s mv calls n0 d0 :
  minimax_calls n (gboard g) d m alpha beta = Ok (s, mv, calls) ->
  minimax n (with_counters n0 d0 g) d m alpha beta =
  Ok (s, mv, with_counters (n0 + Z.of_nat (length calls)) (fold_left Z.max calls d0) g).
Proof.
  intros E. pose proof (minimax_counted n (with_counters n0 d0 g) d m alpha beta) as C.
  change (gboard (with_counters n0 d0 g)) with (gboard g) in C.
  rewrite E in C. exact C.
Qed.

Lemma minimax_traced n g d m alpha beta s mv g' :
  minimax n g d m alpha beta = Ok (s, mv, g') ->
  exists calls,
    minimax_calls n (gboard g) d m alpha beta = Ok (s, mv, calls) /\
    g' = with_counters (nodes_explored g + Z.of_nat (length calls))
           (fold_left Z.max calls (depth_reached g)) g.
Proof.
  intros H. pose proof (minimax_counted n g d m alpha beta) as C.
  destruct (minimax_calls n (gboard g) d m alpha beta) as [[[s1 mv1] calls]|e];
    simpl in C; rewrite C in H; [|discriminate].
  inversion H; subst. by exists calls.
Qed.

(** ** More fuel changes nothing *)

Section FuelLoops.
Variables rec1 rec2 : game -> Z -> bool -> score -> score -> result search_result.
Hypothesis Hrec : forall g d m alpha beta r,
  rec1 g d m alpha beta = Ok r -> rec2 g d m alpha beta = Ok r.

Lemma max_loop_mono cells : forall g d alpha beta max_eval best r,
  max_loop rec1 cells g d alpha beta max_eval best = Ok r ->
  max_loop rec2 cells g d alpha beta max_eval best = Ok r.
Proof.
  induction cells as [|[row col] rest IHc]; intros g d alpha beta me best r H;
    simpl in *; [done|].
  bind_inv H. rewrite Hx. simpl. bind_inv H. rewrite (Hrec _ _ _ _ _ _ Hx0).
  simpl. destruct x0 as [[ev em] g1]. bind_inv H. rewrite Hx1. simpl.
  destruct (score_leb beta (py_max alpha ev)); [done | by apply IHc].
Qed.

Lemma min_loop_mono cells : forall g d alpha beta min_eval best r,
  min_loop rec1 cells g d alpha beta min_eval best = Ok r ->
  min_loop rec2 cells g d alpha beta min_eval best = Ok r.
Proof.
  induction cells as [|[row col] rest IHc]; intros g d alpha beta me best r H;
    simpl in *; [done|].
  bind_inv H. rewrite Hx. simpl. bind_inv H. rewrite (Hrec _ _ _ _ _ _ Hx0).
  simpl. destruct x0 as [[ev em] g1]. bind_inv H. rewrite Hx1. simpl.
  destruct (score_leb (py_min beta ev) alpha); [done | by apply IHc].
Qed.
End FuelLoops.

Lemma minimax_fuel_mono n : forall n' g d m alpha beta r,
  (n <= n')%nat ->
  minimax n g d m alpha beta = Ok r -> minimax n' g d m alpha beta = Ok r.
Proof.
  induction n as [|n IH]; intros n' g d m alpha beta r Hn H; [discriminate|].
  destruct n' as [|n']; [lia|].
  cbn [minimax] in *.
  set (g0 := with_counters _ _ g) in *.
  change (gboard g0) with (gboard g) in *.
  bind_inv H. rewrite Hx. simpl. destruct x; [done|].
  bind_inv H. rewrite Hx0. simpl. destruct x; [done|].
  bind_inv H. rewrite Hx1. simpl. destruct x as [|c cells]; [done|].
  rewrite Hx1 in H. simpl in H.
  destruct m.
  - eapply max_loop_mono; [|exact H]. intros. eapply IH; [lia | done].
  - eapply min_loop_mono; [|exact H]. intros. eapply IH; [lia | done].
Qed.

Lemma self_play_mono turns : forall turns' fuel fuel' g gf,
  (turns <= turns')%nat -> (fuel <= fuel')%nat ->
  self_play turns fuel g = Some gf -> self_play turns' fuel' g = Some gf.
Proof.
  induction turns as [|turns IH]; intros turns' fuel fuel' g gf Ht Hf H.
  - destruct turns'; simpl in *; destruct (game_over g); done.
  - destruct turns' as [|turns']; [lia|].
    cbn [self_play] in *. destruct (game_over g); [done|].
    destruct (minimax fuel g 0 (is_maximizer (current_player g)) NegInf PosInf)
      as [[[s mv] g1]|] eqn:E; [|done].
    rewrite (minimax_fuel_mono _ _ _ _ _ _ _ _ Hf E).
    destruct mv as [[row col]|]; [|done].
    destruct (make_move g1 row col (current_player g1)) as [[[|] g2]|]; try done.
    eapply IH; [| |exact H]; lia.
Qed.

(** ** Coordinates outside the board *)

Lemma py_get_out {A} (l : list A) i :
  ~ (- Z.of_nat (length l) <= i < Z.of_nat (length l)) ->
  py_get l i = Raise IndexError.
Proof.
  intros Hi. unfold py_get, py_index.
  destruct ((0 <=? i) && (i <? Z.of_nat (length l))) eqn:E1.
  { apply andb_true_iff in E1 as [?%Z.leb_le ?%Z.ltb_lt]. lia. }
  destruct ((- Z.of_nat (length l) <=? i) && (i <? 0)) eqn:E2; [|done].
  apply andb_true_iff in E2 as [?%Z.leb_le ?%Z.ltb_lt]. lia.
Qed.

Lemma wf_getc_out b row col :
  wf_board b = true ->
  ~ (- BOARD_SIZE <= row < BOARD_SIZE /\ - BOARD_SIZE <= col < BOARD_SIZE) ->
  getc b row col = Raise IndexError.
Proof.
  intros Hwf Hout. shape b Hwf. unfold BOARD_SIZE in Hout. unfold getc.
  destruct (decide (-3 <= row < 3)) as [Hr|Hr].
  - assert (~ (-3 <= col < 3)) as Hc by lia.
    assert (row = -3 \/ row = -2 \/ row = -1 \/ row = 0 \/ row = 1 \/ row = 2)
      as [?|[?|[?|[?|[?|?]]]]] by lia; subst; simpl;
      by apply py_get_out.
  - by rewrite py_get_out.
Qed.

(** ** The search on nine cells *)

Lemma of_board_to_board b t : of_board b = Some t -> b = to_board t.
Proof.
  destruct b as [|[|? [|? [|? [|]]]] [|[|? [|? [|? [|]]]] [|[|? [|? [|? [|]]]] [|]]]];
    simpl; try discriminate.
  by intros [= <-].
Qed.

Lemma check_winner_grid t p : check_winner (to_board t) p = Ok (grid_winner t p).
Proof.
  destruct t. cbv -[cell_eqb].
  repeat match goal with
  | |- context [cell_eqb ?c (Mark p)] =>
      let x := fresh "e" in generalize (cell_eqb c (Mark p)); intros x
  end.
  repeat match goal with e : bool |- _ => destruct e end; reflexivity.
Qed.

Lemma get_empty_cells_grid t : get_empty_cells (to_board t) = Ok (grid_empty_cells t).
Proof.
  destruct t. cbv -[cell_eqb].
  repeat match goal with
  | |- context [cell_eqb ?c Blank] =>
      let x := fresh "e" in generalize (cell_eqb c Blank); intros x
  end.
  repeat match goal with e : bool |- _ => destruct e end; reflexivity.
Qed.

Lemma setc_grid t row col v :
  in_range row col ->
  setc (to_board t) row col v = Ok (to_board (grid_set t (row, col) v)).
Proof. intros Hr. destruct t. range_cases Hr; reflexivity. Qed.

Section GridSearch.
Variable n : nat.
Hypothesis IHn : forall t d m alpha beta,
  alphabeta n (to_board t) d m alpha beta = of_option (grid_search n t d m alpha beta).

Lemma ab_max_loop_grid cells : forall t d alpha beta max_eval best,
  Forall (fun m : move => in_range m.1 m.2) cells ->
  ab_max_loop (alphabeta n) cells (to_board t) d alpha beta max_eval best =
  of_option (grid_max_loop (grid_search n) cells t d alpha beta max_eval best).
Proof.
  induction cells as [|[row col] rest IHc]; intros t d alpha beta me best Hc;
    [done|].
  inversion Hc as [|? ? Hr Hrest]; subst. cbn [ab_max_loop grid_max_loop].
  rewrite (setc_grid _ _ _ _ Hr). cbn [bind]. rewrite IHn.
  destruct (grid_search n _ _ _ _ _) as [[ev em]|]; [|done]. cbn.
  destruct (score_leb beta (py_max alpha ev)); [done | by apply IHc].
Qed.

Lemma ab_min_loop_grid cells : forall t d alpha beta min_eval best,
  Forall (fun m : move => in_range m.1 m.2) cells ->
  ab_min_loop (alphabeta n) cells (to_board t) d alpha beta min_eval best =
  of_option (grid_min_loop (grid_search n) cells t d alpha beta min_eval best).
Proof.
  induction cells as [|[row col] rest IHc]; intros t d alpha beta me best Hc;
    [done|].
  inversion Hc as [|? ? Hr Hrest]; subst. cbn [ab_min_loop grid_min_loop].
  rewrite (setc_grid _ _ _ _ Hr). cbn [bind]. rewrite IHn.
  destruct (grid_search n _ _ _ _ _) as [[ev em]|]; [|done]. cbn.
  destruct (score_leb (py_min beta ev) alpha); [done | by apply IHc].
Qed.
End GridSearch.

(** [alphabeta] on a board of nine cells is [grid_search]. *)
Lemma alphabeta_grid n : forall t d m alpha beta,
  alphabeta n (to_board t) d m alpha beta = of_option (grid_search n t d m alpha beta).
Proof.
  induction n as [|n IH]; intros t d m alpha beta; [done|].
  cbn [alphabeta grid_search].
  rewrite !check_winner_grid. cbn [bind].
  destruct (grid_winner t O); [done|].
  destruct (grid_winner t X); [done|].
  pose proof (get_empty_cells_grid t) as Hc. rewrite Hc. cbn [bind].
  apply get_empty_cells_blank in Hc.
  assert (Hr : Forall (fun m : move => in_range m.1 m.2) (grid_empty_cells t)).
  { eapply Forall_impl; [exact Hc|]. by intros ? [? _]. }
  destruct (grid_empty_cells t) as [|c cells]; [done|].
  destruct m; [by apply ab_max_loop_grid | by apply ab_min_loop_grid].
Qed.

(** [make_move] neither reads nor writes the search counters. *)
Lemma make_move_with_counters g n d row col p :
  make_move (with_counters n d g) row col p =
  match make_move g row col p with
  | Ok (ok, g') => Ok (ok, with_counters n d g')
  | Raise e => Raise e
  end.
Proof.
  unfold make_move. simpl.
  destruct (game_over g); [done|].
  destruct (getc (gboard g) row col) as [c|]; [|done]. simpl.
  destruct (negb (cell_eqb c Blank)); [done|].
  destruct (setc (gboard g) row col (Mark p)) as [b'|]; [|done]. simpl.
  destruct (check_winner b' p) as [[|]|]; [done| |done]. simpl.
  by destruct (_ =? _).
Qed.

(** A game played with [grid_search] is the game played with [minimax], up
    to the counters. *)
Lemma grid_self_play_sound fuel turns : forall g gf n d,
  grid_self_play turns fuel g = Some gf ->
  exists n' d', self_play turns fuel (with_counters n d g) =
                Some (with_counters n' d' gf).
Proof.
  induction turns as [|turns IH]; intros g gf n d H.
  - simpl in *. destruct (game_over g); [|done]. inversion H; subst. eauto.
  - cbn [grid_self_play self_play] in *.
    change (game_over (with_counters n d g)) with (game_over g).
    destruct (game_over g); [inversion H; subst; eauto|].
    destruct (of_board (gboard g)) as [t|] eqn:Et; [|done].
    apply of_board_to_board in Et.
    change (current_player (with_counters n d g)) with (current_player g).
    pose proof (minimax_alphabeta fuel (with_counters n d g) 0
                  (is_maximizer (current_player g)) NegInf PosInf) as Hl.
    change (gboard (with_counters n d g)) with (gboard g) in Hl.
    rewrite Et, alphabeta_grid in Hl.
    destruct (grid_search fuel t 0 _ _ _) as [[s [[row col]|]]|]; try done.
    destruct Hl as (g1 & -> & F). unfold frame in F.
    change (with_counters (nodes_explored g1) (depth_reached g1) (with_counters n d g))
      with (with_counters (nodes_explored g1) (depth_reached g1) g) in F.
    rewrite F. change (current_player (with_counters _ _ g)) with (current_player g).
    rewrite make_move_with_counters.
    destruct (make_move g row col (current_player g)) as [[[|] g2]|]; try done.
    by apply IH.
Qed.

(** The optimal game from the empty board, move by move. *)
Lemma grid_self_play_from_empty : grid_self_play 9 10 init_game = Some drawn_game.
Proof. vm_compute. reflexivity. Qed.

(** * The claims *)

(** C1. On every board of the game, the search with alpha-beta pruning, as
    called with the default window, returns the score and the best move of
    plain exhaustive minimax (blank cells in row-major order, strict
    comparisons), whatever the depth and the side that optimizes. *)
Theorem minimax_equals_plain_minimax fuel g d m :
  wf_board (gboard g) = true ->
  (count_blank (gboard g) < fuel)%nat ->
  exists s mv g',
    minimax fuel g d m NegInf PosInf = Ok (s, mv, g') /\
    plain_minimax fuel (gboard g) d m = Ok (s, mv).
Proof.
  intros Hwf Hfuel.
  destruct (plain_minimax_total fuel (gboard g) d m Hwf Hfuel) as [[t mvt] Hp].
  destruct (plain_minimax_fin _ _ _ _ _ Hp) as [z Hz]. simpl in Hz. subst t.
  destruct (alphabeta_within fuel (gboard g) d m NegInf PosInf _ eq_refl Hp)
    as (r & Hab & _ & Hmid & _).
  rewrite (Hmid eq_refl eq_refl) in Hab.
  pose proof (minimax_alphabeta fuel g d m NegInf PosInf) as Hl.
  rewrite Hab in Hl. destruct Hl as (g' & Hm & _).
  by exists (Fin z), mvt, g'.
Qed.

Lemma minimax_equals_plain_minimax_witness :
  exists s mv g',
    minimax 10 init_game 0 true NegInf PosInf = Ok (s, mv, g') /\
    plain_minimax 10 (gboard init_game) 0 true = Ok (s, mv).
Proof.
  apply (minimax_equals_plain_minimax 10 init_game 0 true);
    [reflexivity | vm_compute; lia].
Defined.

(** C2. From the empty board with ['X'] to move, when each player in turn
    plays the cell the search returns for it and the cell is committed with
    [make_move], the game ends, and it ends in a draw: the game is over,
    nobody has won and the draw tally went from 0 to 1. *)
Theorem optimal_self_play_draws turns fuel :
  (9 <= turns)%nat -> (10 <= fuel)%nat ->
  exists gf,
    self_play turns fuel init_game = Some gf /\
    game_over gf = true /\ winner gf = None /\
    draws gf = 1 /\ player_wins gf = 0 /\ ai_wins gf = 0 /\
    check_winner (gboard gf) X = Ok false /\
    check_winner (gboard gf) O = Ok false.
Proof.
  intros Ht Hf.
  destruct (grid_self_play_sound 10 9 init_game drawn_game 0 0
              grid_self_play_from_empty) as (n' & d' & H).
  change (with_counters 0 0 init_game) with init_game in H.
  exists (with_counters n' d' drawn_game).
  split; [by apply (self_play_mono 9 turns 10 fuel)|].
  by repeat split.
Qed.

Lemma optimal_self_play_draws_witness :
  exists gf,
    self_play 9 10 init_game = Some gf /\
    game_over gf = true /\ winner gf = None /\
    draws gf = 1 /\ player_wins gf = 0 /\ ai_wins gf = 0 /\
    check_winner (gboard gf) X = Ok false /\
    check_winner (gboard gf) O = Ok false.
Proof. apply (optimal_self_play_draws 9 10); lia. Defined.

(** C3, as the code has it.  [make_move] returns [False] and changes
    nothing when the addressed cell is occupied or the game is over, and a
    call that returns [False] never changes anything.  It does no range check
    of its own: on a game in progress a coordinate outside [[-3, 3)] raises
    [IndexError] instead of returning [False]. *)
Theorem make_move_rejects_occupied g row col p :
  (forall q, in_range row col -> getc (gboard g) row col = Ok (Mark q) ->
     make_move g row col p = Ok (false, g)) /\
  (game_over g = true -> make_move g row col p = Ok (false, g)) /\
  (forall g', make_move g row col p = Ok (false, g') -> g' = g) /\
  (wf_board (gboard g) = true -> game_over g = false ->
   ~ (- BOARD_SIZE <= row < BOARD_SIZE /\ - BOARD_SIZE <= col < BOARD_SIZE) ->
   make_move g row col p = Raise IndexError).
Proof.
  unfold make_move. repeat split.
  - intros q _ Hg. rewrite Hg. simpl. by destruct (game_over g).
  - by intros ->.
  - intros g' H. destruct (game_over g); [by inversion H|].
    bind_inv H. destruct (negb (cell_eqb x Blank)); [by inversion H|].
    bind_inv H. bind_inv H.
    destruct x1; [discriminate|]. by destruct (_ =? _).
  - intros Hwf -> Hout. by rewrite wf_getc_out.
Qed.

Lemma make_move_rejects_occupied_witness :
  make_move after_centre 1 1 O = Ok (false, after_centre).
Proof.
  apply (proj1 (make_move_rejects_occupied after_centre 1 1 O) X);
    [unfold in_range, BOARD_SIZE; lia | reflexivity].
Defined.

(** C3 does not hold as stated for coordinates out of range: on a new game
    [make_move(-1, -1, 'X')] returns [True] and marks cell (2, 2), and
    [make_move(3, 0, 'X')] raises [IndexError]; neither returns [False]. *)
Lemma make_move_out_of_range_counterexample :
  ~ in_range (-1) (-1) /\ ~ in_range 3 0 /\
  (exists g', make_move init_game (-1) (-1) X = Ok (true, g') /\
              getc (gboard g') 2 2 = Ok (Mark X) /\
              moves_made g' = moves_made init_game + 1) /\
  make_move init_game 3 0 X = Raise IndexError.
Proof.
  repeat split; try (unfold in_range, BOARD_SIZE; lia).
  eexists. split; [reflexivity|]. by split.
Qed.

(** C4. Whatever the window, when a search returns, the board is the board
    it started from, and so is every field other than the two counters; the
    same holds for [get_ai_move].  On a board of the game the search called
    with the default window does return. *)
Theorem search_restores_board fuel g :
  (forall d m alpha beta s mv g',
     minimax fuel g d m alpha beta = Ok (s, mv, g') ->
     gboard g' = gboard g /\ frame g g') /\
  (forall mv g', get_ai_move fuel g = Ok (mv, g') -> gboard g' = gboard g) /\
  (wf_board (gboard g) = true -> (count_blank (gboard g) < fuel)%nat ->
   forall d m, exists s mv g',
     minimax fuel g d m NegInf PosInf = Ok (s, mv, g') /\ gboard g' = gboard g).
Proof.
  assert (Hframe : forall d m alpha beta s mv g',
            minimax fuel g d m alpha beta = Ok (s, mv, g') -> frame g g').
  { intros d m alpha beta s mv g' H.
    pose proof (minimax_alphabeta fuel g d m alpha beta) as Hl.
    rewrite H in Hl. unfold lifts in Hl.
    destruct (alphabeta fuel (gboard g) d m alpha beta) as [[s' mv']|e];
      [|discriminate].
    destruct Hl as (g'' & Hg & F). by inversion Hg; subst. }
  repeat split.
  - eapply frame_board, Hframe; eauto.
  - eapply Hframe; eauto.
  - intros mv g' H. unfold get_ai_move in H. bind_inv H.
    destruct x as [[s mv'] g1]. apply Hframe, frame_board in Hx.
    destruct mv' as [m|]; [by inversion H; subst|].
    bind_inv H. bind_inv H. by inversion H; subst.
  - intros Hwf Hfuel d m.
    destruct (plain_minimax_total fuel (gboard g) d m Hwf Hfuel) as [t Hp].
    destruct (alphabeta_within fuel (gboard g) d m NegInf PosInf t eq_refl Hp)
      as ([s mv] & Hab & _).
    pose proof (minimax_alphabeta fuel g d m NegInf PosInf) as Hl.
    rewrite Hab in Hl. destruct Hl as (g' & Hm & F).
    exists s, mv, g'. split; [done | by apply frame_board].
Qed.

Lemma search_restores_board_witness :
  gboard (with_counters 204 7 (with_board two_in_row init_game)) =
  gboard (with_board two_in_row init_game) /\
  exists s mv g',
    minimax 8 (with_board two_in_row init_game) 0 false NegInf PosInf =
    Ok (s, mv, g') /\
    gboard g' = gboard (with_board two_in_row init_game).
Proof.
  destruct (search_restores_board 8 (with_board two_in_row init_game))
    as (Hret & _ & Htotal).
  split.
  - apply (Hret 0 false NegInf PosInf (Fin (-9)) (Some (0, 2))).
    vm_compute. reflexivity.
  - apply Htotal; [reflexivity | vm_compute; lia].
Defined.

(** C5. On the board whose row 0 is [X, X, blank] and whose other cells are
    blank, the search for ['X'] (the minimizing call) at depth 0 returns the
    cell (0, 2) with score 1 - 10: the move that wins at once. *)
Theorem search_takes_immediate_win fuel g :
  gboard g = two_in_row -> (8 <= fuel)%nat ->
  (exists g', minimax fuel g 0 false NegInf PosInf =
              Ok (Fin (1 - 10), Some (0, 2), g')) /\
  (exists b', setc two_in_row 0 2 (Mark X) = Ok b' /\
              check_winner b' X = Ok true).
Proof.
  intros Hb Hf. split; [|by eexists].
  pose proof (minimax_alphabeta 8 g 0 false NegInf PosInf) as Hl.
  rewrite Hb in Hl.
  replace (alphabeta 8 two_in_row 0 false NegInf PosInf)
    with (@Ok value (Fin (1 - 10), Some (0, 2))) in Hl by (by vm_compute).
  destruct Hl as (g' & Hm & _). exists g'.
  by apply (minimax_fuel_mono 8 fuel).
Qed.

Lemma search_takes_immediate_win_witness :
  (exists g', minimax 8 (with_board two_in_row init_game) 0 false NegInf PosInf =
              Ok (Fin (1 - 10), Some (0, 2), g')) /\
  (exists b', setc two_in_row 0 2 (Mark X) = Ok b' /\
              check_winner b' X = Ok true).
Proof.
  apply (search_takes_immediate_win 8 (with_board two_in_row init_game));
    [reflexivity | lia].
Defined.

(** C6. In every state, [reset_game] makes the board blank, gives the move
    to ['X'], clears the game-over flag, the winner and the last automated
    move, zeroes the move count and the two search counters, and keeps the
    three tallies. *)
Theorem reset_game_keeps_tallies g :
  gboard (reset_game g) =
    [[Blank; Blank; Blank]; [Blank; Blank; Blank]; [Blank; Blank; Blank]] /\
  current_player (reset_game g) = X /\
  game_over (reset_game g) = false /\
  winner (reset_game g) = None /\
  last_ai_move (reset_game g) = None /\
  moves_made (reset_game g) = 0 /\
  nodes_explored (reset_game g) = 0 /\
  depth_reached (reset_game g) = 0 /\
  player_wins (reset_game g) = player_wins g /\
  ai_wins (reset_game g) = ai_wins g /\
  draws (reset_game g) = draws g.
Proof. by repeat split. Qed.

(** C7, as the code has it.  After every successful [make_move] the player
    to move is the opponent of the mark just placed, also when the move ends
    the game; the game is over after the move exactly when the move
    completes a line for the mark or brings the move count to
    [max_moves]. *)
Theorem make_move_always_toggles g row col p g' :
  make_move g row col p = Ok (true, g') ->
  current_player g' = other p /\
  moves_made g' = moves_made g + 1 /\
  exists w, check_winner (gboard g') p = Ok w /\
            game_over g' = w || (moves_made g' =? max_moves g).
Proof.
  unfold make_move. intros H.
  destruct (game_over g) eqn:Eo; [discriminate|].
  bind_inv H. destruct (negb (cell_eqb x Blank)); [discriminate|].
  bind_inv H. bind_inv H. destruct x1.
  - inversion H; subst; simpl.
    split; [by destruct p|]. split; [done|]. by exists true.
  - destruct (moves_made g + 1 =? max_moves g) eqn:Em;
      inversion H; subst; simpl;
      (split; [by destruct p|]); (split; [done|]);
      exists false; by rewrite Em.
Qed.

Lemma make_move_always_toggles_witness :
  current_player (mkGame
      [[Mark X; Mark X; Mark X]; [Mark O; Mark O; Blank]; [Blank; Blank; Blank]]
      O true (Some X) None 5 9 1 0 0 0 0) = other X /\
  5 = moves_made before_win + 1 /\
  exists w,
    check_winner
      [[Mark X; Mark X; Mark X]; [Mark O; Mark O; Blank]; [Blank; Blank; Blank]]
      X = Ok w /\
    true = w || (5 =? max_moves before_win).
Proof.
  apply (make_move_always_toggles before_win 0 2 X
           (mkGame [[Mark X; Mark X; Mark X]; [Mark O; Mark O; Blank];
                    [Blank; Blank; Blank]]
              O true (Some X) None 5 9 1 0 0 0 0)).
  reflexivity.
Defined.

(** C7 does not hold as stated: the move (0, 2) of ['X'] below completes
    row 0 and ends the game, and the player to move changes from ['X'] to
    ['O']. *)
Lemma make_move_toggles_on_win_counterexample :
  exists g',
    make_move before_win 0 2 X = Ok (true, g') /\
    game_over g' = true /\ winner g' = Some X /\
    current_player before_win = X /\ current_player g' = O.
Proof. eexists. split; [reflexivity|]. by repeat split. Qed.

(** C8. Each [minimax] call adds one to the node counter and raises the
    depth counter to its depth, on top of what the counters hold: after a
    search the node counter is its old value plus the number of calls the
    search made, and the depth counter is its old value raised in turn to the
    depth of every call, where the calls are those of the search on the
    board: the call itself, at depth [d], then deeper ones.  The same holds
    from any other start values of the counters, so nothing is set back to
    zero at the start of [minimax] or of [get_ai_move].  [make_move] leaves
    the counters alone, and [reset_game] sets them to zero. *)
Theorem counters_accumulate fuel g :
  (forall d m alpha beta s mv g',
     minimax fuel g d m alpha beta = Ok (s, mv, g') ->
     exists calls,
       minimax_calls fuel (gboard g) d m alpha beta = Ok (s, mv, d :: calls) /\
       Forall (fun x => d < x) calls /\
       nodes_explored g' = nodes_explored g + Z.of_nat (length (d :: calls)) /\
       depth_reached g' = fold_left Z.max (d :: calls) (depth_reached g) /\
       forall n0 d0,
         minimax fuel (with_counters n0 d0 g) d m alpha beta =
         Ok (s, mv,
             with_counters (n0 + Z.of_nat (length (d :: calls)))
               (fold_left Z.max (d :: calls) d0) g)) /\
  (forall mv g',
     get_ai_move fuel g = Ok (mv, g') ->
     exists s mv0 calls,
       minimax_calls fuel (gboard g) 0 true NegInf PosInf = Ok (s, mv0, 0 :: calls) /\
       nodes_explored g' = nodes_explored g + Z.of_nat (length (0 :: calls)) /\
       depth_reached g' = fold_left Z.max (0 :: calls) (depth_reached g) /\
       forall n0 d0,
         get_ai_move fuel (with_counters n0 d0 g) =
         Ok (mv,
             with_counters (n0 + Z.of_nat (length (0 :: calls)))
               (fold_left Z.max (0 :: calls) d0) g)) /\
  (forall row col p ok g',
     make_move g row col p = Ok (ok, g') ->
     nodes_explored g' = nodes_explored g /\
     depth_reached g' = depth_reached g) /\
  nodes_explored (reset_game g) = 0 /\ depth_reached (reset_game g) = 0.
Proof.
  split; [|split; [|split; [|by split]]].
  - intros d m alpha beta s mv g' H.
    destruct (minimax_traced _ _ _ _ _ _ _ _ _ H) as (calls & E & ->).
    destruct (minimax_calls_shape _ _ _ _ _ _ _ _ _ E) as (below & -> & Hb).
    exists below. split; [done|]. split; [done|]. split; [done|]. split; [done|].
    intros n0 d0. by apply minimax_counted_from.
  - intros mv g' H. unfold get_ai_move in H. bind_inv H.
    destruct x as [[s mv'] g1].
    destruct (minimax_traced _ _ _ _ _ _ _ _ _ Hx) as (calls & E & ->).
    destruct (minimax_calls_shape _ _ _ _ _ _ _ _ _ E) as (below & -> & Hb).
    exists s, mv', below. split; [done|].
    assert (Hfrom : forall n0 d0,
      get_ai_move fuel (with_counters n0 d0 g) =
      Ok (mv, with_counters (n0 + Z.of_nat (length (0 :: below)))
                (fold_left Z.max (0 :: below) d0) g)).
    { intros n0 d0. unfold get_ai_move.
      rewrite (minimax_counted_from _ _ _ _ _ _ _ _ _ n0 d0 E). cbn [bind].
      destruct mv' as [m'|]; [by inversion H|].
      change (gboard (with_counters _ _ g)) with (gboard g) in H |- *.
      bind_inv H. rewrite Hx0. cbn [bind]. bind_inv H. rewrite Hx1. cbn [bind].
      by inversion H. }
    pose proof (Hfrom (nodes_explored g) (depth_reached g)) as Hg.
    rewrite with_counters_id in Hg.
    assert (Eg : get_ai_move fuel g = Ok (mv, g')).
    { unfold get_ai_move. rewrite Hx. cbn [bind]. exact H. }
    rewrite Eg in Hg. inversion Hg; subst. by repeat split.
  - intros row col p ok g' H. unfold make_move in H.
    destruct (game_over g); [by inversion H|].
    bind_inv H. destruct (negb (cell_eqb x Blank)); [by inversion H|].
    bind_inv H. bind_inv H.
    destruct x1; [by inversion H|].
    by destruct (_ =? _); inversion H.
Qed.

Lemma counters_accumulate_witness :
  exists calls,
    minimax_calls 8 two_in_row 0 false NegInf PosInf =
      Ok (Fin (-9), Some (0, 2), 0 :: calls) /\
    Forall (fun x => 0 < x) calls /\
    204 = 0 + Z.of_nat (length (0 :: calls)) /\
    7 = fold_left Z.max (0 :: calls) 0 /\
    forall n0 d0,
      minimax 8 (with_counters n0 d0 (with_board two_in_row init_game))
        0 false NegInf PosInf =
      Ok (Fin (-9), Some (0, 2),
          with_counters (n0 + Z.of_nat (length (0 :: calls)))
            (fold_left Z.max (0 :: calls) d0) (with_board two_in_row init_game)).
Proof.
  apply (proj1 (counters_accumulate 8 (with_board two_in_row init_game))
           0 false NegInf PosInf (Fin (-9)) (Some (0, 2))
           (with_counters 204 7 (with_board two_in_row init_game))).
  vm_compute. reflexivity.
Defined.

(** C9. On a board of the game where some player has a complete line and
    [c] is the first blank cell in row-major order, the search returns at
    once without a move, and [get_ai_move] returns [c] rather than raising
    an error. *)
Theorem get_ai_move_falls_back fuel g c cells :
  wf_board (gboard g) = true ->
  check_winner (gboard g) O = Ok true \/ check_winner (gboard g) X = Ok true ->
  get_empty_cells (gboard g) = Ok (c :: cells) ->
  (exists s g', minimax (S fuel) g 0 true NegInf PosInf = Ok (s, None, g')) /\
  (exists g', get_ai_move (S fuel) g = Ok (c, g')) /\
  getc (gboard g) c.1 c.2 = Ok Blank.
Proof.
  intros Hwf Hwin Hc.
  assert (Hm : exists s g', minimax (S fuel) g 0 true NegInf PosInf = Ok (s, None, g')
                            /\ gboard g' = gboard g).
  { cbn [minimax]. set (g0 := with_counters _ _ g).
    change (gboard g0) with (gboard g).
    destruct (check_winner_total (gboard g) O Hwf) as [wo Ho].
    rewrite Ho. simpl. destruct wo; [by eexists _, _|].
    destruct Hwin as [Hwin|Hwin]; [congruence|].
    rewrite Hwin. simpl. by eexists _, _. }
  destruct Hm as (s & g' & Hm & Hb).
  split; [eauto|]. split.
  - exists g'. unfold get_ai_move. rewrite Hm. simpl. rewrite Hb, Hc. done.
  - apply get_empty_cells_blank in Hc. by inversion Hc as [|? ? [_ ?] _].
Qed.

Lemma get_ai_move_falls_back_witness :
  (exists s g',
     minimax 1 (with_board
        [[Mark X; Mark X; Mark X]; [Mark O; Mark O; Blank]; [Blank; Blank; Blank]]
        init_game) 0 true NegInf PosInf = Ok (s, None, g')) /\
  (exists g',
     get_ai_move 1 (with_board
        [[Mark X; Mark X; Mark X]; [Mark O; Mark O; Blank]; [Blank; Blank; Blank]]
        init_game) = Ok ((1, 2), g')) /\
  getc [[Mark X; Mark X; Mark X]; [Mark O; Mark O; Blank]; [Blank; Blank; Blank]]
    1 2 = Ok Blank.
Proof.
  apply (get_ai_move_falls_back 0
           (with_board [[Mark X; Mark X; Mark X]; [Mark O; Mark O; Blank];
                        [Blank; Blank; Blank]] init_game)
           (1, 2) [(2, 0); (2, 1); (2, 2)]);
    [reflexivity | right; reflexivity | reflexivity].
Defined.

(** C10. [make_move] has no range check: on a game in progress, with both
    coordinates in [[-3, 0)] and the cell (row + 3, col + 3) blank, it
    writes the mark into that cell and returns [True], while
    [is_valid_move] answers [False] for the same coordinates. *)
Theorem make_move_wraps_negative g row col p :
  wf_board (gboard g) = true -> game_over g = false ->
  - BOARD_SIZE <= row < 0 -> - BOARD_SIZE <= col < 0 ->
  getc (gboard g) (row + BOARD_SIZE) (col + BOARD_SIZE) = Ok Blank ->
  (exists g',
     make_move g row col p = Ok (true, g') /\
     setc (gboard g) (row + BOARD_SIZE) (col + BOARD_SIZE) (Mark p) = Ok (gboard g') /\
     getc (gboard g') (row + BOARD_SIZE) (col + BOARD_SIZE) = Ok (Mark p)) /\
  is_valid_move g row col = Ok false.
Proof.
  intros Hwf Hover Hr Hc Hblank.
  destruct (wf_wrap _ _ _ Hwf Hr Hc) as [Hget Hset].
  assert (Hin : in_range (row + BOARD_SIZE) (col + BOARD_SIZE)).
  { unfold in_range, BOARD_SIZE in *. lia. }
  destruct (wf_setc _ _ _ (Mark p) Hwf Hin) as (b' & Hs & Hwf' & Hg').
  destruct (check_winner_total b' p Hwf') as [w Hw].
  split.
  - unfold make_move. rewrite Hover, Hget, Hblank. simpl.
    rewrite Hset, Hs. simpl. rewrite Hw. simpl.
    destruct w; [by eexists|].
    destruct (_ =? _); by eexists.
  - unfold is_valid_move.
    replace (0 <=? row) with false; [done|].
    symmetry. apply Z.leb_gt. lia.
Qed.

Lemma make_move_wraps_negative_witness :
  (exists g',
     make_move init_game (-1) (-1) X = Ok (true, g') /\
     setc (gboard init_game) (-1 + BOARD_SIZE) (-1 + BOARD_SIZE) (Mark X) =
       Ok (gboard g') /\
     getc (gboard g') (-1 + BOARD_SIZE) (-1 + BOARD_SIZE) = Ok (Mark X)) /\
  is_valid_move init_game (-1) (-1) = Ok false.
Proof.
  apply (make_move_wraps_negative init_game (-1) (-1) X);
    [reflexivity | reflexivity | unfold BOARD_SIZE; lia
    | unfold BOARD_SIZE; lia | reflexivity].
Defined.

(** * Further properties *)

(** ** Boards as nine cells *)

Lemma wf_to_board b : wf_board b = true -> exists t, b = to_board t.
Proof.
  intros Hwf. destruct (wf_board_shape b Hwf) as (c0&c1&c2&c3&c4&c5&c6&c7&c8&->).
  by exists (Grid c0 c1 c2 c3 c4 c5 c6 c7 c8).
Qed.

Lemma to_board_wf t : wf_board (to_board t) = true.
Proof. by destruct t. Qed.

Lemma cell_eqb_eq c d : cell_eqb c d = true <-> c = d.
Proof.
  destruct c as [|[]], d as [|[]]; simpl; split; congruence.
Qed.

Lemma grid_winner_lines t p :
  grid_winner t p = true <->
  exists l, In l winning_lines /\ on_line (to_board t) p l.
Proof.
  destruct t as [c00 c01 c02 c10 c11 c12 c20 c21 c22]. split.
  - unfold grid_winner, line.
    rewrite !orb_true_iff, !andb_true_iff, !cell_eqb_eq.
    intros H.
    assert (Hl : forall l, Forall (fun m : move => getc (to_board
                (Grid c00 c01 c02 c10 c11 c12 c20 c21 c22)) m.1 m.2 = Ok (Mark p)) l ->
              on_line (to_board (Grid c00 c01 c02 c10 c11 c12 c20 c21 c22)) p l).
    { intros l Hf m Hm. by eapply (proj1 (List.Forall_forall _ _)) in Hf. }
    destruct H as [[[[[[[H|H]|H]|H]|H]|H]|H]|H]; destruct H as [[-> ->] ->].
    + exists [(0, 0); (0, 1); (0, 2)]. split; [simpl; tauto|]. apply Hl. by repeat constructor.
    + exists [(0, 0); (1, 0); (2, 0)]. split; [simpl; tauto|]. apply Hl. by repeat constructor.
    + exists [(1, 0); (1, 1); (1, 2)]. split; [simpl; tauto|]. apply Hl. by repeat constructor.
    + exists [(0, 1); (1, 1); (2, 1)]. split; [simpl; tauto|]. apply Hl. by repeat constructor.
    + exists [(2, 0); (2, 1); (2, 2)]. split; [simpl; tauto|]. apply Hl. by repeat constructor.
    + exists [(0, 2); (1, 2); (2, 2)]. split; [simpl; tauto|]. apply Hl. by repeat constructor.
    + exists [(0, 0); (1, 1); (2, 2)]. split; [simpl; tauto|]. apply Hl. by repeat constructor.
    + exists [(0, 2); (1, 1); (2, 0)]. split; [simpl; tauto|]. apply Hl. by repeat constructor.
  - intros (l & Hin & Hl). unfold grid_winner, line.
    rewrite !orb_true_iff, !andb_true_iff, !cell_eqb_eq.
    assert (Hc : forall r c x, In (r, c) l ->
              getc (to_board (Grid c00 c01 c02 c10 c11 c12 c20 c21 c22)) r c = Ok x ->
              x = Mark p).
    { intros r c x Hm Hg. specialize (Hl (r, c) Hm). cbn [fst snd] in Hl. congruence. }
    simpl in Hin.
    destruct Hin as [<-|[<-|[<-|[<-|[<-|[<-|[<-|[<-|[]]]]]]]]].
    + do 7 left.
      split; [split; [apply (Hc 0 0) | apply (Hc 0 1)] | apply (Hc 0 2)];
        first [reflexivity | simpl; tauto].
    + do 6 left. right.
      split; [split; [apply (Hc 0 0) | apply (Hc 1 0)] | apply (Hc 2 0)];
        first [reflexivity | simpl; tauto].
    + do 5 left. right.
      split; [split; [apply (Hc 1 0) | apply (Hc 1 1)] | apply (Hc 1 2)];
        first [reflexivity | simpl; tauto].
    + do 4 left. right.
      split; [split; [apply (Hc 0 1) | apply (Hc 1 1)] | apply (Hc 2 1)];
        first [reflexivity | simpl; tauto].
    + do 3 left. right.
      split; [split; [apply (Hc 2 0) | apply (Hc 2 1)] | apply (Hc 2 2)];
        first [reflexivity | simpl; tauto].
    + do 2 left. right.
      split; [split; [apply (Hc 0 2) | apply (Hc 1 2)] | apply (Hc 2 2)];
        first [reflexivity | simpl; tauto].
    + do 1 left. right.
      split; [split; [apply (Hc 0 0) | apply (Hc 1 1)] | apply (Hc 2 2)];
        first [reflexivity | simpl; tauto].
    + right.
      split; [split; [apply (Hc 0 2) | apply (Hc 1 1)] | apply (Hc 2 0)];
        first [reflexivity | simpl; tauto].
Qed.

(** X1. On a 3x3 board [check_winner] never raises, and it answers [True]
    exactly when one of the eight lines holds three marks of the player. *)
Theorem check_winner_iff_line b p :
  wf_board b = true ->
  exists w, check_winner b p = Ok w /\
            (w = true <-> exists l, In l winning_lines /\ on_line b p l).
Proof.
  intros Hwf. destruct (wf_to_board b Hwf) as [t ->].
  exists (grid_winner t p). split; [apply check_winner_grid|].
  apply grid_winner_lines.
Qed.

Lemma check_winner_iff_line_witness :
  exists w, check_winner two_in_row X = Ok w /\
            (w = true <-> exists l, In l winning_lines /\ on_line two_in_row X l).
Proof. apply (check_winner_iff_line two_in_row X). reflexivity. Defined.

Lemma grid_empty_cells_filter t :
  grid_empty_cells t = List.filter (blank_cell (to_board t)) all_cells.
Proof.
  destruct t as [c00 c01 c02 c10 c11 c12 c20 c21 c22].
  destruct c00, c01, c02, c10, c11, c12, c20, c21, c22; reflexivity.
Qed.

Lemma get_empty_cells_filter b :
  wf_board b = true ->
  get_empty_cells b = Ok (List.filter (blank_cell b) all_cells).
Proof.
  intros Hwf. destruct (wf_to_board b Hwf) as [t ->].
  by rewrite get_empty_cells_grid, grid_empty_cells_filter.
Qed.

(** X2. On a 3x3 board [get_empty_cells] never raises and returns the
    row-major enumeration of the cells with the non-blank cells left out. *)
Theorem get_empty_cells_row_major b :
  wf_board b = true ->
  get_empty_cells b = Ok (List.filter (blank_cell b) all_cells).
Proof. apply get_empty_cells_filter. Qed.

Lemma get_empty_cells_row_major_witness :
  get_empty_cells two_in_row = Ok (List.filter (blank_cell two_in_row) all_cells).
Proof. apply (get_empty_cells_row_major two_in_row). reflexivity. Defined.

(** ** Valid moves *)

Lemma all_cells_in_range m : In m all_cells <-> in_range m.1 m.2.
Proof.
  destruct m as [r c]. unfold in_range, BOARD_SIZE. cbn. split.
  - intros H. repeat (destruct H as [H|H]; [inversion H; subst; lia|]). done.
  - intros [Hr Hc].
    assert (r = 0 \/ r = 1 \/ r = 2) as [-> | [-> | ->]] by lia;
    assert (c = 0 \/ c = 1 \/ c = 2) as [-> | [-> | ->]] by lia;
      repeat ((left; reflexivity) || right).
Qed.

Lemma in_range_test row col :
  (0 <=? row) && (row <? BOARD_SIZE) && (0 <=? col) && (col <? BOARD_SIZE) = true
  <-> in_range row col.
Proof.
  unfold in_range. rewrite !andb_true_iff, !Z.leb_le, !Z.ltb_lt. tauto.
Qed.

Lemma blank_cell_true b m : blank_cell b m = true <-> getc b m.1 m.2 = Ok Blank.
Proof.
  unfold blank_cell. destruct (getc b m.1 m.2) as [[|p]|e]; split; congruence.
Qed.

(** X3. On a 3x3 board [is_valid_move] never raises, whatever the
    coordinates, and it answers [True] exactly for the cells that
    [get_empty_cells] lists. *)
Theorem is_valid_move_iff_empty_cell g row col :
  wf_board (gboard g) = true ->
  exists v cells,
    is_valid_move g row col = Ok v /\
    get_empty_cells (gboard g) = Ok cells /\
    (v = true <-> In (row, col) cells).
Proof.
  intros Hwf. unfold is_valid_move.
  destruct ((0 <=? row) && (row <? BOARD_SIZE) && (0 <=? col) && (col <? BOARD_SIZE))
    eqn:Et.
  - apply in_range_test in Et.
    destruct (wf_getc _ _ _ Hwf Et) as [x Hx]. rewrite Hx. simpl.
    exists (cell_eqb x Blank), (List.filter (blank_cell (gboard g)) all_cells).
    split; [done|]. split; [by apply get_empty_cells_filter|].
    rewrite List.filter_In, all_cells_in_range, blank_cell_true, cell_eqb_eq.
    simpl. rewrite Hx. split; [intros ->; by split | intros [_ H]; by inversion H].
  - exists false, (List.filter (blank_cell (gboard g)) all_cells).
    split; [done|]. split; [by apply get_empty_cells_filter|].
    rewrite List.filter_In, all_cells_in_range. simpl.
    split; [done|]. intros [Hr _]. apply in_range_test in Hr. congruence.
Qed.

Lemma is_valid_move_iff_empty_cell_witness :
  exists v cells,
    is_valid_move init_game (-1) 0 = Ok v /\
    get_empty_cells (gboard init_game) = Ok cells /\
    (v = true <-> In (-1, 0) cells).
Proof. apply (is_valid_move_iff_empty_cell init_game (-1) 0). reflexivity. Defined.

Lemma is_valid_move_true g row col :
  is_valid_move g row col = Ok true ->
  in_range row col /\ getc (gboard g) row col = Ok Blank.
Proof.
  unfold is_valid_move.
  destruct ((0 <=? row) && (row <? BOARD_SIZE) && (0 <=? col) && (col <? BOARD_SIZE))
    eqn:Et; [|discriminate].
  apply in_range_test in Et. intros H. bind_inv H. inversion H as [E].
  apply cell_eqb_eq in E. by subst.
Qed.

Lemma setc_other b row col v b' r c :
  wf_board b = true -> in_range row col -> in_range r c -> (r, c) <> (row, col) ->
  setc b row col v = Ok b' -> getc b' r c = getc b r c.
Proof.
  intros Hwf H1 H2 Hne Hs. shape b Hwf.
  range_cases H1; range_cases H2; inversion Hs; subst; try reflexivity;
    by destruct Hne.
Qed.

(** X4. On a game in progress, a move that [is_valid_move] accepts is
    carried out by [make_move]: it returns [True], the cell holds the mark,
    every other cell is as before, the board keeps its shape and has one
    blank cell less, and the move count goes up by one. *)
Theorem valid_move_is_made g row col p :
  wf_board (gboard g) = true -> game_over g = false ->
  is_valid_move g row col = Ok true ->
  exists g',
    make_move g row col p = Ok (true, g') /\
    wf_board (gboard g') = true /\
    getc (gboard g') row col = Ok (Mark p) /\
    (forall r c, in_range r c -> (r, c) <> (row, col) ->
       getc (gboard g') r c = getc (gboard g) r c) /\
    S (count_blank (gboard g')) = count_blank (gboard g) /\
    moves_made g' = moves_made g + 1.
Proof.
  intros Hwf Hover Hv. apply is_valid_move_true in Hv as [Hr Hg].
  destruct (wf_setc _ _ _ (Mark p) Hwf Hr) as (b' & Hs & Hwf' & Hg').
  destruct (check_winner_total b' p Hwf') as [w Hw].
  pose proof (count_blank_setc _ _ _ _ _ Hwf Hr Hg Hs) as Hcnt.
  assert (Hframe : forall r c, in_range r c -> (r, c) <> (row, col) ->
            getc b' r c = getc (gboard g) r c).
  { intros r c H1 H2. exact (setc_other _ _ _ _ _ r c Hwf Hr H1 H2 Hs). }
  unfold make_move. rewrite Hover, Hg. simpl. rewrite Hs. simpl. rewrite Hw. simpl.
  destruct w; [by eexists|].
  destruct (_ =? _); by eexists.
Qed.

Lemma valid_move_is_made_witness :
  exists g',
    make_move init_game 1 1 X = Ok (true, g') /\
    wf_board (gboard g') = true /\
    getc (gboard g') 1 1 = Ok (Mark X) /\
    (forall r c, in_range r c -> (r, c) <> (1, 1) ->
       getc (gboard g') r c = getc (gboard init_game) r c) /\
    S (count_blank (gboard g')) = count_blank (gboard init_game) /\
    moves_made g' = moves_made init_game + 1.
Proof. apply (valid_move_is_made init_game 1 1 X); reflexivity. Defined.

(** X5. [make_move] does not look at whose turn it is: with any other
    value in [current_player] it returns the same answer and, on success,
    the same state; a refused move leaves the state alone. *)
Theorem make_move_ignores_turn g cp row col p :
  make_move (with_player cp g) row col p =
  match make_move g row col p with
  | Ok (true, g') => Ok (true, g')
  | Ok (false, _) => Ok (false, with_player cp g)
  | Raise e => Raise e
  end.
Proof.
  unfold make_move. simpl.
  destruct (game_over g); [done|].
  destruct (getc (gboard g) row col) as [c|]; [|done]. simpl.
  destruct (negb (cell_eqb c Blank)); [done|].
  destruct (setc (gboard g) row col (Mark p)) as [b'|]; [|done]. simpl.
  destruct (check_winner b' p) as [[|]|]; [done| |done]. simpl.
  by destruct (_ =? _).
Qed.

(** ** The recorded outcome agrees with the board *)

Lemma wf_normalize b row col x :
  wf_board b = true -> getc b row col = Ok x ->
  exists r c, in_range r c /\ getc b r c = Ok x /\
              forall v, setc b row col v = setc b r c v.
Proof.
  intros Hwf Hg.
  destruct (decide (- BOARD_SIZE <= row < BOARD_SIZE /\
                    - BOARD_SIZE <= col < BOARD_SIZE)) as [[Hr Hc]|Hout];
    [|by rewrite wf_getc_out in Hg].
  unfold BOARD_SIZE in *.
  destruct (decide (row < 0)) as [Hr0|Hr0], (decide (col < 0)) as [Hc0|Hc0].
  - exists (row + 3), (col + 3). shape b Hwf. split; [unfold in_range, BOARD_SIZE; lia|].
    assert (row = -3 \/ row = -2 \/ row = -1) as [-> | [-> | ->]] by lia;
    assert (col = -3 \/ col = -2 \/ col = -1) as [-> | [-> | ->]] by lia; by split.
  - exists (row + 3), col. shape b Hwf. split; [unfold in_range, BOARD_SIZE; lia|].
    assert (row = -3 \/ row = -2 \/ row = -1) as [-> | [-> | ->]] by lia;
    assert (col = 0 \/ col = 1 \/ col = 2) as [-> | [-> | ->]] by lia; by split.
  - exists row, (col + 3). shape b Hwf. split; [unfold in_range, BOARD_SIZE; lia|].
    assert (row = 0 \/ row = 1 \/ row = 2) as [-> | [-> | ->]] by lia;
    assert (col = -3 \/ col = -2 \/ col = -1) as [-> | [-> | ->]] by lia; by split.
  - exists row, col. split; [unfold in_range, BOARD_SIZE; lia | done].
Qed.

Lemma setc_to_board t row col v b' :
  in_range row col -> setc (to_board t) row col v = Ok b' ->
  b' = to_board (grid_set t (row, col) v).
Proof. intros Hr Hs. rewrite (setc_grid _ _ _ _ Hr) in Hs. by inversion Hs. Qed.

(** A mark placed on a blank cell completes no line of the other player. *)
Lemma check_winner_other b row col p b' :
  wf_board b = true -> in_range row col ->
  getc b row col = Ok Blank -> setc b row col (Mark p) = Ok b' ->
  check_winner b' (other p) = check_winner b (other p).
Proof.
  intros Hwf Hr Hg Hs. destruct (wf_to_board b Hwf) as [t ->].
  apply (setc_to_board _ _ _ _ _ Hr) in Hs. subst b'.
  rewrite !check_winner_grid. f_equal.
  destruct t, p; range_cases Hr; inversion Hg; subst; reflexivity.
Qed.

Lemma minimax_frame fuel g d m alpha beta s mv g' :
  minimax fuel g d m alpha beta = Ok (s, mv, g') -> frame g g'.
Proof.
  intros H. pose proof (minimax_alphabeta fuel g d m alpha beta) as Hl.
  rewrite H in Hl. unfold lifts in Hl.
  destruct (alphabeta fuel (gboard g) d m alpha beta) as [[s' mv']|e];
    [|discriminate].
  destruct Hl as (g'' & Hg & F). by inversion Hg; subst.
Qed.

Lemma get_ai_move_frame fuel g mv g' :
  get_ai_move fuel g = Ok (mv, g') -> frame g g'.
Proof.
  unfold get_ai_move. intros H. bind_inv H. destruct x as [[s mv'] g1].
  apply minimax_frame in Hx.
  destruct mv' as [m|]; [by inversion H; subst|].
  bind_inv H. bind_inv H. by inversion H; subst.
Qed.

Lemma consistent_frame g g' : frame g g' -> consistent g -> consistent g'.
Proof. unfold frame. by intros ->. Qed.

Lemma consistent_make_move g row col p ok g' :
  consistent g -> make_move g row col p = Ok (ok, g') -> consistent g'.
Proof.
  intros Hcons H.
  pose proof Hcons as (Hwf & Hmax & Hmoves & Hpw & Haw & Hdr & Hout).
  unfold make_move in H.
  destruct (game_over g) eqn:Hover; [by inversion H; subst|].
  bind_inv H.
  destruct (cell_eqb x Blank) eqn:Ex; simpl in H; [|by inversion H; subst].
  apply cell_eqb_eq in Ex. subst x.
  destruct (wf_normalize _ _ _ _ Hwf Hx) as (r & c & Hr & Hg & Hset).
  rewrite Hset in H. bind_inv H.
  pose proof (count_blank_setc _ _ _ _ _ Hwf Hr Hg Hx0) as Hcnt.
  pose proof (setc_wf _ _ _ _ _ Hwf Hr Hx0) as Hwf'.
  pose proof (check_winner_other _ _ _ _ _ Hwf Hr Hg Hx0) as Hoth.
  destruct (winner g) as [q|] eqn:Hwin; [destruct Hout; congruence|].
  destruct Hout as (HX & HO & Hfull).
  assert (Hq : check_winner x (other p) = Ok false).
  { rewrite Hoth. by destruct p. }
  bind_inv H. destruct x0.
  - inversion H; subst; clear H. unfold consistent; simpl.
    repeat split; try done; try lia; destruct p; lia.
  - destruct (moves_made g + 1 =? max_moves g) eqn:Em;
      inversion H; subst; clear H; unfold consistent; simpl; rewrite ?Hwin.
    + apply Z.eqb_eq in Em.
      repeat split; try done; try lia; destruct p; done.
    + apply Z.eqb_neq in Em.
      repeat split; try done; try lia; try (destruct p; done).
Qed.

(** X6. In every state the object reaches by calls whose mark is ['X'] or
    ['O'] the board is 3x3, [moves_made] is the number of marks on it, and
    the outcome fields agree with the board: a recorded winner has a line,
    the game is then over and the other player has no line; with no winner
    recorded nobody has a line, and the game is over exactly when the board
    is full. *)
Theorem reachable_consistent g : reachable g -> consistent g.
Proof.
  induction 1 as [|g _ IH|g row col p ok g' _ IH Hm|g fuel d m a b s mv g' _ IH Hm
                 |g fuel mv g' _ IH Hm|g mv _ IH].
  - unfold consistent. simpl. by repeat split.
  - destruct IH as (_ & Hmax & _ & ? & ? & ? & _).
    unfold consistent. simpl. by repeat split.
  - by eapply consistent_make_move.
  - eapply consistent_frame; [by eapply minimax_frame | done].
  - eapply consistent_frame; [by eapply get_ai_move_frame | done].
  - exact IH.
Qed.

Lemma reachable_consistent_witness :
  consistent
    (mkGame [[Mark X; Mark X; Mark X]; [Mark O; Mark O; Blank];
             [Blank; Blank; Blank]]
       O true (Some X) None 5 9 1 0 0 0 0).
Proof.
  pose proof (reach_make_move _ 0 0 X _ _ reach_init eq_refl) as R1.
  pose proof (reach_make_move _ 1 0 O _ _ R1 eq_refl) as R2.
  pose proof (reach_make_move _ 0 1 X _ _ R2 eq_refl) as R3.
  pose proof (reach_make_move _ 1 1 O _ _ R3 eq_refl) as R4.
  pose proof (reach_make_move _ 0 2 X _ _ R4 eq_refl) as R5.
  exact (reachable_consistent _ R5).
Defined.

(** ** What the search returns *)

(** X7. The score and the move a search returns, or the exception it
    raises, are decided by the board, the depth, the side and the window:
    the counters, the player to move, the outcome fields and the tallies of
    the object make no difference. *)
Theorem search_depends_on_board_only fuel g1 g2 d m alpha beta :
  gboard g1 = gboard g2 ->
  match minimax fuel g1 d m alpha beta, minimax fuel g2 d m alpha beta with
  | Ok (s1, mv1, _), Ok (s2, mv2, _) => s1 = s2 /\ mv1 = mv2
  | Raise e1, Raise e2 => e1 = e2
  | _, _ => False
  end.
Proof.
  intros Hb.
  pose proof (minimax_alphabeta fuel g1 d m alpha beta) as H1.
  pose proof (minimax_alphabeta fuel g2 d m alpha beta) as H2.
  rewrite Hb in H1. unfold lifts in *.
  destruct (alphabeta fuel (gboard g2) d m alpha beta) as [[s mv]|e].
  - destruct H1 as (g1' & -> & _), H2 as (g2' & -> & _). done.
  - by rewrite H1, H2.
Qed.

Lemma search_depends_on_board_only_witness :
  match minimax 8 (with_board two_in_row init_game) 0 false NegInf PosInf,
        minimax 8 (with_board two_in_row after_centre) 0 false NegInf PosInf with
  | Ok (s1, mv1, _), Ok (s2, mv2, _) => s1 = s2 /\ mv1 = mv2
  | Raise e1, Raise e2 => e1 = e2
  | _, _ => False
  end.
Proof.
  apply (search_depends_on_board_only 8 (with_board two_in_row init_game)
           (with_board two_in_row after_centre) 0 false NegInf PosInf).
  reflexivity.
Defined.

(** The result of a loop of the plain search: the running best it started
    with, or a candidate together with the value of the position the
    candidate leads to. *)
Lemma plain_max_loop_choice rec cells : forall b d pm pbest t mvt,
  plain_max_loop rec cells b d pm pbest = Ok (t, mvt) ->
  (t = pm /\ mvt = pbest) \/
  (exists m b1 x, In m cells /\ mvt = Some m /\
                  setc b m.1 m.2 (Mark O) = Ok b1 /\
                  rec b1 (d + 1) false = Ok (t, x)).
Proof.
  induction cells as [|[row col] rest IHc]; intros b d pm pbest t mvt H;
    simpl in H.
  - inversion H; subst. by left.
  - bind_inv H. bind_inv H. destruct x0 as [ev em].
    destruct (score_ltb pm ev); apply IHc in H.
    + right. destruct H as [[-> ->]|(m & b1 & y & Hin & -> & Hs & Hr)].
      * exists (row, col), x, em. repeat split; [by left | done..].
      * exists m, b1, y. repeat split; [by right | done..].
    + destruct H as [H|(m & b1 & y & Hin & -> & Hs & Hr)]; [by left|].
      right. exists m, b1, y. repeat split; [by right | done..].
Qed.

Lemma plain_min_loop_choice rec cells : forall b d pm pbest t mvt,
  plain_min_loop rec cells b d pm pbest = Ok (t, mvt) ->
  (t = pm /\ mvt = pbest) \/
  (exists m b1 x, In m cells /\ mvt = Some m /\
                  setc b m.1 m.2 (Mark X) = Ok b1 /\
                  rec b1 (d + 1) true = Ok (t, x)).
Proof.
  induction cells as [|[row col] rest IHc]; intros b d pm pbest t mvt H;
    simpl in H.
  - inversion H; subst. by left.
  - bind_inv H. bind_inv H. destruct x0 as [ev em].
    destruct (score_ltb ev pm); apply IHc in H.
    + right. destruct H as [[-> ->]|(m & b1 & y & Hin & -> & Hs & Hr)].
      * exists (row, col), x, em. repeat split; [by left | done..].
      * exists m, b1, y. repeat split; [by right | done..].
    + destruct H as [H|(m & b1 & y & Hin & -> & Hs & Hr)]; [by left|].
      right. exists m, b1, y. repeat split; [by right | done..].
Qed.

(** Every candidate of the maximizing loop is worth at most the result. *)
Lemma plain_max_loop_upper rec cells : forall b d pm pbest t,
  plain_max_loop rec cells b d pm pbest = Ok t ->
  forall m, In m cells ->
  exists b1 e, setc b m.1 m.2 (Mark O) = Ok b1 /\
               rec b1 (d + 1) false = Ok e /\ sle e.1 t.1.
Proof.
  induction cells as [|[row col] rest IHc]; intros b d pm pbest t H m Hin;
    simpl in H; [done|].
  bind_inv H. bind_inv H. destruct x0 as [ev em].
  destruct Hin as [<-|Hin].
  - exists x, (ev, em). repeat split; [done..|]. simpl.
    destruct (score_ltb pm ev) eqn:E; apply plain_max_loop_ge in H;
      [done | order_prep; order_done].
  - destruct (score_ltb pm ev); by eapply IHc.
Qed.

(** The search with the default window and the plain search, side by
    side. *)
Lemma search_is_plain fuel g d m :
  wf_board (gboard g) = true -> (count_blank (gboard g) < fuel)%nat ->
  exists z mv g',
    minimax fuel g d m NegInf PosInf = Ok (Fin z, mv, g') /\
    plain_minimax fuel (gboard g) d m = Ok (Fin z, mv) /\
    frame g g'.
Proof.
  intros Hwf Hfuel.
  destruct (plain_minimax_total fuel (gboard g) d m Hwf Hfuel) as [[t mvt] Hp].
  destruct (plain_minimax_fin _ _ _ _ _ Hp) as [z Hz]. simpl in Hz. subst t.
  destruct (alphabeta_within fuel (gboard g) d m NegInf PosInf _ eq_refl Hp)
    as (r & Hab & _ & Hmid & _).
  rewrite (Hmid eq_refl eq_refl) in Hab.
  pose proof (minimax_alphabeta fuel g d m NegInf PosInf) as Hl.
  rewrite Hab in Hl. destruct Hl as (g' & Hm & F).
  by exists z, mvt, g'.
Qed.

Lemma plain_minimax_move n b d m t mvt cells :
  check_winner b O = Ok false -> check_winner b X = Ok false ->
  get_empty_cells b = Ok cells -> cells <> [] ->
  plain_minimax n b d m = Ok (t, mvt) ->
  exists mv, mvt = Some mv /\ In mv cells.
Proof.
  intros HO HX Hc Hne H. destruct n as [|n]; [discriminate|].
  pose proof (plain_minimax_fin _ _ _ _ _ H) as [z Hz]. simpl in Hz. subst t.
  cbn [plain_minimax] in H. rewrite HO, HX, Hc in H. simpl in H.
  destruct cells as [|c cells]; [done|].
  destruct m.
  - apply plain_max_loop_choice in H as [[? _]|(mv & _ & _ & Hin & -> & _)];
      [discriminate | eauto].
  - apply plain_min_loop_choice in H as [[? _]|(mv & _ & _ & Hin & -> & _)];
      [discriminate | eauto].
Qed.

(** X8. On a 3x3 board where nobody has a line and a blank cell is left, the
    search for either side returns a move, and the move is one of the blank
    cells; so [get_ai_move] returns a blank cell and its fallback is not
    taken. *)
Theorem search_returns_blank_cell fuel g cells :
  wf_board (gboard g) = true ->
  check_winner (gboard g) O = Ok false -> check_winner (gboard g) X = Ok false ->
  get_empty_cells (gboard g) = Ok cells -> cells <> [] ->
  (count_blank (gboard g) < fuel)%nat ->
  (forall d m, exists z mv g',
     minimax fuel g d m NegInf PosInf = Ok (Fin z, Some mv, g') /\ In mv cells) /\
  (exists z mv g',
     minimax fuel g 0 true NegInf PosInf = Ok (z, Some mv, g') /\
     get_ai_move fuel g = Ok (mv, g') /\ In mv cells /\
     getc (gboard g) mv.1 mv.2 = Ok Blank).
Proof.
  intros Hwf HO HX Hc Hne Hfuel.
  assert (H : forall d m, exists z mv g',
            minimax fuel g d m NegInf PosInf = Ok (Fin z, Some mv, g') /\ In mv cells).
  { intros d m.
    destruct (search_is_plain fuel g d m Hwf Hfuel) as (z & mvt & g' & Hm & Hp & _).
    destruct (plain_minimax_move _ _ _ _ _ _ _ HO HX Hc Hne Hp) as (mv & -> & Hin).
    by exists z, mv, g'. }
  split; [exact H|].
  destruct (H 0 true) as (z & mv & g' & Hm & Hin).
  exists (Fin z), mv, g'. repeat split; [done | | done |].
  - unfold get_ai_move. by rewrite Hm.
  - apply get_empty_cells_blank in Hc.
    eapply (proj1 (List.Forall_forall _ _)) in Hc as [_ ?]; eauto.
Qed.

Lemma search_returns_blank_cell_witness :
  (forall d m, exists z mv g',
     minimax 8 (with_board two_in_row init_game) d m NegInf PosInf =
       Ok (Fin z, Some mv, g') /\
     In mv [(0, 2); (1, 0); (1, 1); (1, 2); (2, 0); (2, 1); (2, 2)]) /\
  (exists z mv g',
     minimax 8 (with_board two_in_row init_game) 0 true NegInf PosInf =
       Ok (z, Some mv, g') /\
     get_ai_move 8 (with_board two_in_row init_game) = Ok (mv, g') /\
     In mv [(0, 2); (1, 0); (1, 1); (1, 2); (2, 0); (2, 1); (2, 2)] /\
     getc (gboard (with_board two_in_row init_game)) mv.1 mv.2 = Ok Blank).
Proof.
  apply (search_returns_blank_cell 8 (with_board two_in_row init_game)
           [(0, 2); (1, 0); (1, 1); (1, 2); (2, 0); (2, 1); (2, 2)]);
    [reflexivity | reflexivity | reflexivity | reflexivity | discriminate
    | vm_compute; lia].
Defined.

(** X9. With every cell taken and no line on the board, [get_ai_move] has
    no cell to fall back on: the search returns no move and indexing the
    empty list of blank cells raises [IndexError]. *)
Theorem get_ai_move_full_board_raises fuel g :
  check_winner (gboard g) O = Ok false -> check_winner (gboard g) X = Ok false ->
  get_empty_cells (gboard g) = Ok [] ->
  (exists g', minimax (S fuel) g 0 true NegInf PosInf = Ok (Fin 0, None, g')) /\
  get_ai_move (S fuel) g = Raise IndexError.
Proof.
  intros HO HX Hc.
  assert (Hm : exists g', minimax (S fuel) g 0 true NegInf PosInf = Ok (Fin 0, None, g')
                          /\ gboard g' = gboard g).
  { cbn [minimax]. set (g0 := with_counters _ _ g).
    change (gboard g0) with (gboard g). rewrite HO, HX, Hc. simpl. by eexists. }
  destruct Hm as (g' & Hm & Hb). split; [eauto|].
  unfold get_ai_move. rewrite Hm. simpl. by rewrite Hb, Hc.
Qed.

Lemma get_ai_move_full_board_raises_witness :
  (exists g', minimax 1 drawn_game 0 true NegInf PosInf = Ok (Fin 0, None, g')) /\
  get_ai_move 1 drawn_game = Raise IndexError.
Proof. apply (get_ai_move_full_board_raises 0 drawn_game); reflexivity. Defined.

(** ** Scores *)

Lemma count_blank_le b : wf_board b = true -> (count_blank b <= 9)%nat.
Proof.
  intros Hwf. shape b Hwf. unfold count_blank. simpl.
  repeat match goal with |- context [cell_eqb ?c Blank] =>
    destruct (cell_eqb c Blank) end; lia.
Qed.

Lemma plain_minimax_bounds n : forall b d m z mv,
  wf_board b = true -> 0 <= d -> d + Z.of_nat (count_blank b) <= 10 ->
  plain_minimax n b d m = Ok (Fin z, mv) -> d - 10 <= z <= 10 - d.
Proof.
  induction n as [|n IH]; intros b d m z mv Hwf Hd Hk H; [discriminate|].
  cbn [plain_minimax] in H.
  bind_inv H. destruct x; [inversion H; lia|].
  bind_inv H. destruct x; [inversion H; lia|].
  bind_inv H. destruct x as [|c cells]; [inversion H; lia|].
  apply get_empty_cells_blank in Hx1.
  assert (Hchild : forall p (mv' : move) b1 x m',
            In mv' (c :: cells) -> setc b mv'.1 mv'.2 (Mark p) = Ok b1 ->
            plain_minimax n b1 (d + 1) m' = Ok (Fin z, x) -> d - 10 <= z <= 10 - d).
  { intros p mv' b1 x m' Hin Hs Hr.
    eapply (proj1 (List.Forall_forall _ _)) in Hx1 as [Hrg Hg]; [|exact Hin].
    pose proof (count_blank_setc _ _ _ _ _ Hwf Hrg Hg Hs) as Hcnt.
    pose proof (setc_wf _ _ _ _ _ Hwf Hrg Hs) as Hwf1.
    pose proof (IH b1 (d + 1) m' z x Hwf1 ltac:(lia) ltac:(lia) Hr). lia. }
  destruct m.
  - apply plain_max_loop_choice in H as [[? _]|(mv' & b1 & x & Hin & _ & Hs & Hr)];
      [discriminate | by eapply Hchild].
  - apply plain_min_loop_choice in H as [[? _]|(mv' & b1 & x & Hin & _ & Hs & Hr)];
      [discriminate | by eapply Hchild].
Qed.

(** X10. At a depth [d >= 0] with [d] plus the number of blank cells at
    most 10, as for every position of a search started at depth 0, the score
    the search returns is a number between [d - 10] and [10 - d]. *)
Theorem search_score_bounds fuel g d m :
  wf_board (gboard g) = true -> (count_blank (gboard g) < fuel)%nat ->
  0 <= d -> d + Z.of_nat (count_blank (gboard g)) <= 10 ->
  exists z mv g',
    minimax fuel g d m NegInf PosInf = Ok (Fin z, mv, g') /\
    d - 10 <= z <= 10 - d.
Proof.
  intros Hwf Hfuel Hd Hk.
  destruct (search_is_plain fuel g d m Hwf Hfuel) as (z & mv & g' & Hm & Hp & _).
  exists z, mv, g'. split; [done|]. by eapply plain_minimax_bounds.
Qed.

Lemma search_score_bounds_witness :
  exists z mv g',
    minimax 10 init_game 0 true NegInf PosInf = Ok (Fin z, mv, g') /\
    0 - 10 <= z <= 10 - 0.
Proof.
  apply (search_score_bounds 10 init_game 0 true);
    [reflexivity | vm_compute; lia | lia | vm_compute; discriminate].
Defined.

(** A position at depth 1 where ['O'] has no line is worth at most 8. *)
Lemma plain_minimax_no_line n b z mv :
  wf_board b = true -> Z.of_nat (count_blank b) <= 8 ->
  check_winner b O = Ok false ->
  plain_minimax n b 1 false = Ok (Fin z, mv) -> z <= 8.
Proof.
  intros Hwf Hk HO H. destruct n as [|n]; [discriminate|].
  cbn [plain_minimax] in H. rewrite HO in H. simpl in H.
  bind_inv H. destruct x; [inversion H; lia|].
  bind_inv H. destruct x as [|c cells]; [inversion H; lia|].
  apply get_empty_cells_blank in Hx0.
  apply plain_min_loop_choice in H as [[? _]|(mv' & b1 & x & Hin & _ & Hs & Hr)];
    [discriminate|].
  eapply (proj1 (List.Forall_forall _ _)) in Hx0 as [Hrg Hg]; [|exact Hin].
  pose proof (count_blank_setc _ _ _ _ _ Hwf Hrg Hg Hs) as Hcnt.
  pose proof (setc_wf _ _ _ _ _ Hwf Hrg Hs) as Hwf1.
  pose proof (plain_minimax_bounds n b1 (1 + 1) true z x Hwf1 ltac:(lia) ltac:(lia) Hr).
  lia.
Qed.

(** X11. When nobody has a line and some blank cell completes a line for
    ['O'], the cell [get_ai_move] returns completes a line for ['O']: the
    automated player takes a win it can have at once. *)
Theorem get_ai_move_takes_win fuel g cells m b1 :
  wf_board (gboard g) = true ->
  check_winner (gboard g) O = Ok false -> check_winner (gboard g) X = Ok false ->
  get_empty_cells (gboard g) = Ok cells ->
  (count_blank (gboard g) < fuel)%nat ->
  In m cells -> setc (gboard g) m.1 m.2 (Mark O) = Ok b1 ->
  check_winner b1 O = Ok true ->
  exists mv g' b',
    get_ai_move fuel g = Ok (mv, g') /\ In mv cells /\
    setc (gboard g) mv.1 mv.2 (Mark O) = Ok b' /\
    check_winner b' O = Ok true.
Proof.
  intros Hwf HO HX Hc Hfuel Hin Hs Hw.
  destruct (search_is_plain fuel g 0 true Hwf Hfuel) as (z & mvt & g' & Hm & Hp & _).
  destruct fuel as [|n]; [lia|].
  cbn [plain_minimax] in Hp. rewrite HO, HX, Hc in Hp. simpl in Hp.
  destruct cells as [|c cells]; [done|].
  pose proof (get_empty_cells_blank _ _ Hc) as Hblank.
  assert (Hn : (1 <= n)%nat).
  { eapply (proj1 (List.Forall_forall _ _)) in Hblank as [Hrg Hg]; [|exact Hin].
    pose proof (count_blank_setc _ _ _ _ _ Hwf Hrg Hg Hs). lia. }
  (* the winning cell is worth 9, so the result is at least 9 *)
  destruct (plain_max_loop_upper _ _ _ _ _ _ _ Hp m Hin) as (b2 & e & Hs2 & He & Hle).
  rewrite Hs in Hs2. inversion Hs2; subst b2; clear Hs2.
  destruct n as [|n]; [lia|].
  cbn [plain_minimax] in He. rewrite Hw in He. simpl in He.
  inversion He; subst e; clear He. simpl in Hle.
  (* the result is the value of the returned cell *)
  apply plain_max_loop_choice in Hp as [[? _]|(mv & b' & x & Hmv & -> & Hs' & Hr)];
    [discriminate|].
  exists mv, g', b'. split; [unfold get_ai_move; by rewrite Hm|].
  split; [done|]. split; [done|].
  eapply (proj1 (List.Forall_forall _ _)) in Hblank as [Hrg Hg]; [|exact Hmv].
  pose proof (count_blank_setc _ _ _ _ _ Hwf Hrg Hg Hs') as Hcnt.
  pose proof (setc_wf _ _ _ _ _ Hwf Hrg Hs') as Hwf'.
  pose proof (count_blank_le _ Hwf) as Hle9.
  destruct (check_winner_total b' O Hwf') as [[|] Hw']; [done|].
  assert (z <= 8).
  { eapply (plain_minimax_no_line (S n) b' z x); eauto; lia. }
  apply sle_spec in Hle. simpl in Hle. lia.
Qed.

Lemma get_ai_move_takes_win_witness :
  exists mv g' b',
    get_ai_move 8 (with_board
        [[Mark O; Mark O; Blank]; [Mark X; Mark X; Blank]; [Blank; Blank; Blank]]
        init_game) = Ok (mv, g') /\
    In mv [(0, 2); (1, 2); (2, 0); (2, 1); (2, 2)] /\
    setc [[Mark O; Mark O; Blank]; [Mark X; Mark X; Blank]; [Blank; Blank; Blank]]
      mv.1 mv.2 (Mark O) = Ok b' /\
    check_winner b' O = Ok true.
Proof.
  apply (get_ai_move_takes_win 8
           (with_board [[Mark O; Mark O; Blank]; [Mark X; Mark X; Blank];
                        [Blank; Blank; Blank]] init_game)
           [(0, 2); (1, 2); (2, 0); (2, 1); (2, 2)] (0, 2)
           [[Mark O; Mark O; Mark O]; [Mark X; Mark X; Blank]; [Blank; Blank; Blank]]);
    [reflexivity | reflexivity | reflexivity | reflexivity | vm_compute; lia
    | by left | reflexivity | reflexivity].
Defined.

(** ** The event loop *)

Lemma grid_empty_cells_length t :
  length (grid_empty_cells t) = count_blank (to_board t).
Proof.
  destruct t as [c00 c01 c02 c10 c11 c12 c20 c21 c22].
  destruct c00, c01, c02, c10, c11, c12, c20, c21, c22; reflexivity.
Qed.

Lemma grid_empty_cells_in t m :
  In m (grid_empty_cells t) <->
  in_range m.1 m.2 /\ getc (to_board t) m.1 m.2 = Ok Blank.
Proof.
  by rewrite grid_empty_cells_filter, List.filter_In, all_cells_in_range,
    blank_cell_true.
Qed.

(** [make_move] on a blank cell of a game in progress, on nine cells. *)
Lemma make_move_grid g t row col p :
  gboard g = to_board t -> game_over g = false ->
  in_range row col -> getc (gboard g) row col = Ok Blank ->
  exists g',
    make_move g row col p = Ok (true, g') /\
    gboard g' = to_board (grid_set t (row, col) (Mark p)) /\
    current_player g' = other p /\
    game_over g' = grid_winner (grid_set t (row, col) (Mark p)) p
                   || (moves_made g + 1 =? max_moves g) /\
    winner g' = (if grid_winner (grid_set t (row, col) (Mark p)) p
                 then Some p else winner g) /\
    player_wins g' = (if grid_winner (grid_set t (row, col) (Mark p)) p
                      then match p with X => player_wins g + 1 | O => player_wins g end
                      else player_wins g) /\
    last_ai_move g' = last_ai_move g.
Proof.
  intros Hb Hover Hr Hg. unfold make_move. rewrite Hover, Hg. simpl.
  rewrite Hb, (setc_grid _ _ _ _ Hr). simpl. rewrite check_winner_grid. simpl.
  destruct (grid_winner _ p).
  - eexists. split; [reflexivity|]. simpl. by destruct p.
  - destruct (_ =? _) eqn:E; eexists; (split; [reflexivity|]); simpl;
      rewrite ?Hover; by destruct p.
Qed.

(** The move of a pruned loop is the one it started with or a candidate. *)
Lemma ab_max_loop_move rec cells : forall b d alpha beta me best s mv,
  ab_max_loop rec cells b d alpha beta me best = Ok (s, mv) ->
  mv = best \/ exists m, mv = Some m /\ In m cells.
Proof.
  induction cells as [|[row col] rest IHc]; intros b d alpha beta me best s mv H;
    simpl in H.
  - inversion H. by left.
  - bind_inv H. bind_inv H. destruct x0 as [ev em].
    assert (Hb : (if score_ltb me ev then Some (row, col) else best) = best \/
                 (if score_ltb me ev then Some (row, col) else best) = Some (row, col)).
    { destruct (score_ltb me ev); auto. }
    destruct (score_leb beta (py_max alpha ev)).
    + inversion H; subst. destruct Hb as [->| ->]; [by left|].
      right. exists (row, col). split; [done | by left].
    + apply IHc in H as [->|(m & -> & Hin)].
      * destruct Hb as [->| ->]; [by left|].
        right. exists (row, col). split; [done | by left].
      * right. exists m. split; [done | by right].
Qed.

Lemma alphabeta_max_move n b d alpha beta s mv :
  alphabeta n b d true alpha beta = Ok (s, Some mv) ->
  in_range mv.1 mv.2 /\ getc b mv.1 mv.2 = Ok Blank.
Proof.
  intros H. destruct n as [|n]; [discriminate|]. cbn [alphabeta] in H.
  bind_inv H. destruct x; [discriminate|].
  bind_inv H. destruct x; [discriminate|].
  bind_inv H. destruct x as [|c cells]; [discriminate|].
  rewrite Hx1 in H. cbn [bind] in H.
  apply get_empty_cells_blank in Hx1.
  apply ab_max_loop_move in H as [?|(m & [= ->] & Hin)]; [discriminate|].
  by eapply (proj1 (List.Forall_forall _ _)) in Hx1.
Qed.

(** [get_ai_move] returns the move [grid_search] finds. *)
Lemma get_ai_move_grid fuel g t s mv :
  gboard g = to_board t -> (10 <= fuel)%nat ->
  grid_search 10 t 0 true NegInf PosInf = Some (s, Some mv) ->
  in_range mv.1 mv.2 /\ getc (gboard g) mv.1 mv.2 = Ok Blank /\
  exists g1, get_ai_move fuel g = Ok (mv, g1) /\ frame g g1.
Proof.
  intros Hb Hfuel Hs.
  pose proof (alphabeta_grid 10 t 0 true NegInf PosInf) as Ha.
  rewrite Hs in Ha. cbn [of_option] in Ha.
  pose proof (alphabeta_max_move _ _ _ _ _ _ _ Ha) as [Hr Hg].
  rewrite <- Hb in Ha, Hg.
  pose proof (minimax_alphabeta 10 g 0 true NegInf PosInf) as Hl.
  rewrite Ha in Hl. destruct Hl as (g1 & Hm & F).
  apply (minimax_fuel_mono 10 fuel) in Hm; [|done].
  repeat split; [apply Hr.. | done |].
  exists g1. split; [|done]. unfold get_ai_move. by rewrite Hm.
Qed.

Lemma getc_grid_set t row col v :
  in_range row col -> getc (to_board (grid_set t (row, col) v)) row col = Ok v.
Proof. intros Hr. destruct t. range_cases Hr; reflexivity. Qed.

Lemma getc_grid_set_other t row col v r c :
  in_range row col -> in_range r c -> (r, c) <> (row, col) ->
  getc (to_board (grid_set t (row, col) v)) r c = getc (to_board t) r c.
Proof.
  intros H1 H2 Hne. destruct t.
  range_cases H1; range_cases H2; try reflexivity; by destruct Hne.
Qed.

Lemma consistent_reset g : consistent g -> consistent (reset_game g).
Proof.
  intros (_ & Hmax & _ & ? & ? & ? & _). unfold consistent. simpl. by repeat split.
Qed.

Lemma consistent_in_progress g :
  consistent g -> game_over g = false ->
  winner g = None /\ count_blank (gboard g) <> 0%nat.
Proof.
  intros (_ & _ & _ & _ & _ & _ & Hout) Hover.
  destruct (winner g); [destruct Hout; congruence|].
  destruct Hout as (_ & _ & Hfull). split; [done|].
  intros E. apply Hfull in E. congruence.
Qed.

Lemma human_cannot_win_from_start : human_cannot_win 5 blank_grid = true.
Proof. vm_compute. reflexivity. Qed.

Lemma count_mark_grid_set t row col p :
  in_range row col -> getc (to_board t) row col = Ok Blank ->
  count_mark p (to_board (grid_set t (row, col) (Mark p))) =
    S (count_mark p (to_board t)) /\
  count_mark (other p) (to_board (grid_set t (row, col) (Mark p))) =
    count_mark (other p) (to_board t).
Proof.
  intros Hr Hg. destruct t.
  range_cases Hr; inversion Hg; subst; destruct p; unfold count_mark; simpl; lia.
Qed.

Lemma consistent_init : consistent init_game.
Proof. unfold consistent. simpl. by repeat split. Qed.

Lemma app_safe_start : app_safe app_start.
Proof.
  unfold app_safe, app_start. simpl.
  split; [apply consistent_init|]. split; [done|]. split; [done|].
  split; [done|]. split; [done|].
  split; [|done]. intros _ _. exists 5%nat, blank_grid.
  split; [reflexivity | apply human_cannot_win_from_start].
Qed.

Lemma app_safe_reset st r :
  app_safe st -> app_safe (App (reset_game (app_game st)) false r).
Proof.
  intros (Hc & _ & _ & Hpw & _). unfold app_safe. simpl.
  split; [by apply consistent_reset|]. split; [done|]. split; [done|].
  split; [done|]. split; [done|].
  split; [|done]. intros _ _. exists 5%nat, blank_grid.
  split; [reflexivity | apply human_cannot_win_from_start].
Qed.

(** A click on a cell while the human is to move. *)
Lemma app_safe_human_move st row col r :
  app_safe st ->
  game_over (app_game st) = false -> current_player (app_game st) = X ->
  in_range row col ->
  exists ok g',
    make_move (app_game st) row col X = Ok (ok, g') /\
    app_safe (App g' (if ok then true else ai_thinking st) r).
Proof.
  intros Hs Hover Hcur Hr. pose proof Hs as (Hc & Halt & Hlast & Hpw & Hwin & HX & HO).
  destruct (HX Hover Hcur) as (n & t & Hb & Hn).
  assert (Hwf : wf_board (gboard (app_game st)) = true) by apply Hc.
  destruct (wf_getc _ _ _ Hwf Hr) as [x Hg].
  destruct (cell_eqb x Blank) eqn:Ex.
  - apply cell_eqb_eq in Ex. subst x.
    destruct (make_move_grid _ t row col X Hb Hover Hr Hg)
      as (g' & Hm & Hb' & Hcur' & Hover' & Hwin' & Hpw' & Hlast').
    exists true, g'. split; [done|].
    pose proof (consistent_make_move _ _ _ _ _ _ Hc Hm) as Hc'.
    destruct n as [|n]; [discriminate|]. cbn [human_cannot_win] in Hn.
    rewrite forallb_forall in Hn.
    assert (Hin : In (row, col) (grid_empty_cells t)).
    { apply grid_empty_cells_in. rewrite <- Hb. by split. }
    specialize (Hn _ Hin). cbv zeta in Hn.
    destruct (grid_winner (grid_set t (row, col) (Mark X)) X); [discriminate|].
    simpl in Hcur'. unfold app_safe. cbn [app_game ai_thinking].
    split; [done|].
    split.
    { unfold marks_alternate in *. rewrite Hcur', Hb'. rewrite Hcur, Hb in Halt.
      rewrite Hb in Hg.
      destruct (count_mark_grid_set t row col X Hr Hg) as [E1 E2].
      simpl in E2. rewrite E1, E2. by rewrite Halt. }
    split.
    { unfold last_move_marked in *. rewrite Hlast', Hb'. rewrite Hb in Hlast, Hg.
      destruct (last_ai_move (app_game st)) as [[lr lc]|]; [|done].
      destruct Hlast as [Hlr Hlg]. split; [done|]. cbn [fst snd] in *.
      rewrite getc_grid_set_other; [done..|]. intros [= -> ->]. congruence. }
    split; [congruence|]. split; [congruence|].
    split; [intros _ ?; congruence|].
    intros Hover'' _ _. exists n, (grid_set t (row, col) (Mark X)).
    split; [done|].
    destruct (consistent_in_progress _ Hc' Hover'') as [_ Hcnt].
    rewrite Hb', <- grid_empty_cells_length in Hcnt.
    by destruct (grid_empty_cells (grid_set t (row, col) (Mark X))).
  - exists false, (app_game st). split.
    + unfold make_move. rewrite Hover, Hg. simpl. by rewrite Ex.
    + by destruct st.
Qed.

(** The timer event while the automated player is to move. *)
Lemma app_safe_ai_move fuel st r :
  (10 <= fuel)%nat -> app_safe st -> ai_thinking st = true ->
  game_over (app_game st) = false -> current_player (app_game st) = O ->
  exists mv g1 ok g2,
    get_ai_move fuel (app_game st) = Ok (mv, g1) /\
    make_move g1 mv.1 mv.2 O = Ok (ok, g2) /\
    app_safe (App (with_last_ai_move (Some mv) g2) false r).
Proof.
  intros Hfuel Hs Hai Hover Hcur. pose proof Hs as (Hc & Halt & Hlast & Hpw & Hwin & HX & HO).
  destruct (HO Hover Hcur Hai) as (n & t & Hb & Hn).
  unfold ai_reply_safe in Hn.
  destruct (grid_search 10 t 0 true NegInf PosInf) as [[s [mv|]]|] eqn:Es;
    try discriminate.
  destruct (get_ai_move_grid fuel _ t s mv Hb Hfuel Es)
    as (Hr & Hg & g1 & Hget & F).
  exists mv, g1.
  pose proof (consistent_frame _ _ F Hc) as Hc1.
  unfold frame in F.
  assert (Hb1 : gboard g1 = to_board t) by (by rewrite F).
  assert (Hover1 : game_over g1 = false) by (by rewrite F).
  assert (Hg1 : getc (gboard g1) mv.1 mv.2 = Ok Blank) by (by rewrite F).
  destruct (make_move_grid g1 t mv.1 mv.2 O Hb1 Hover1 Hr Hg1)
    as (g2 & Hm & Hb2 & Hcur2 & Hover2 & Hwin2 & Hpw2 & Hlast2).
  exists true, g2. split; [done|]. split; [done|].
  pose proof (consistent_make_move _ _ _ _ _ _ Hc1 Hm) as Hc2.
  replace (mv.1, mv.2) with mv in * by (by destruct mv).
  simpl in Hcur2. unfold app_safe. cbn [app_game ai_thinking].
  split; [done|].
  split.
  { change (marks_alternate g2). unfold marks_alternate in *.
    rewrite Hcur2, Hb2. rewrite Hcur, Hb in Halt. rewrite Hb1 in Hg1.
    destruct mv as [row col].
    destruct (count_mark_grid_set t row col O Hr Hg1) as [E1 E2].
    simpl in E2. rewrite E1, E2. by rewrite Halt. }
  split.
  { unfold last_move_marked. cbn [last_ai_move gboard with_last_ai_move].
    split; [done|]. rewrite Hb2. destruct mv as [row col].
    by apply getc_grid_set. }
  split; [change (player_wins g2 = 0); rewrite Hpw2, F; simpl;
          by destruct (grid_winner _ O)|].
  split; [change (winner g2 <> Some X); rewrite Hwin2, F; simpl;
          by destruct (grid_winner _ O)|].
  split; [|done].
  change (game_over g2 = false -> current_player g2 = X ->
          exists n0 t0, gboard g2 = to_board t0 /\ human_cannot_win n0 t0 = true).
  intros Hover' _. exists n, (grid_set t mv (Mark O)). split; [done|].
  destruct (consistent_in_progress _ Hc2 Hover') as [_ Hcnt].
  rewrite Hb2, <- grid_empty_cells_length in Hcnt.
  rewrite Hover' in Hover2. symmetry in Hover2.
  apply orb_false_iff in Hover2 as [Hw _]. rewrite Hw in Hn.
  by destruct (grid_empty_cells (grid_set t mv (Mark O))).
Qed.

Lemma player_eqb_eq p q : player_eqb p q = true <-> p = q.
Proof. destruct p, q; simpl; split; congruence. Qed.

Lemma handle_event_safe fuel pos st ev :
  (10 <= fuel)%nat -> app_safe st ->
  exists st', handle_event fuel pos st ev = Ok st' /\ app_safe st'.
Proof.
  intros Hfuel Hs. destruct ev; cbn [handle_event].
  - eexists. split; [reflexivity|]. exact Hs.
  - destruct (collidepoint reset_rect pos).
    { eexists. split; [reflexivity|]. by apply app_safe_reset. }
    destruct (collidepoint quit_rect pos).
    { eexists. split; [reflexivity|]. exact Hs. }
    destruct (negb (game_over (app_game st)) &&
              player_eqb (current_player (app_game st)) X &&
              negb (ai_thinking st)) eqn:Et;
      [|eexists; split; [reflexivity | exact Hs]].
    apply andb_true_iff in Et as [Et Hai]. apply andb_true_iff in Et as [Hover Hcur].
    apply negb_true_iff in Hover, Hai. apply player_eqb_eq in Hcur.
    destruct ((0 <=? pos.2 / CELL_SIZE) && (pos.2 / CELL_SIZE <? BOARD_SIZE) &&
              (0 <=? pos.1 / CELL_SIZE) && (pos.1 / CELL_SIZE <? BOARD_SIZE)) eqn:Er;
      [|eexists; split; [reflexivity | exact Hs]].
    apply in_range_test in Er.
    destruct (app_safe_human_move st _ _ (running st) Hs Hover Hcur Er)
      as (ok & g' & -> & Hs').
    cbn [bind]. destruct ok; eexists; (split; [reflexivity | exact Hs']).
  - destruct (ai_thinking st) eqn:Hai; [|eexists; split; [reflexivity | exact Hs]].
    destruct (negb (game_over (app_game st)) &&
              player_eqb (current_player (app_game st)) O) eqn:Et.
    + apply andb_true_iff in Et as [Hover Hcur].
      apply negb_true_iff in Hover. apply player_eqb_eq in Hcur.
      destruct (app_safe_ai_move fuel st (running st) Hfuel Hs Hai Hover Hcur)
        as (mv & g1 & ok & g2 & -> & Hm & Hs').
      cbn [bind]. rewrite Hm. cbn [bind]. eauto.
    + eexists. split; [reflexivity|].
      destruct Hs as (Hc & Halt & Hlast & Hpw & Hwin & HX & HO).
      unfold app_safe. cbn [app_game ai_thinking].
      split; [done|]. split; [done|]. split; [done|]. split; [done|].
      split; [done|]. split; [exact HX | intros _ _ ?; discriminate].
  - eexists. split; [reflexivity|]. exact Hs.
Qed.

Lemma handle_events_safe fuel pos events : forall st,
  (10 <= fuel)%nat -> app_safe st ->
  exists st', handle_events fuel pos events st = Ok st' /\ app_safe st'.
Proof.
  induction events as [|ev rest IH]; intros st Hfuel Hs; simpl; [eauto|].
  destruct (handle_event_safe fuel pos st ev Hfuel Hs) as (st1 & -> & Hs1).
  simpl. by apply IH.
Qed.

Lemma main_loop_safe fuel frames : forall st,
  (10 <= fuel)%nat -> app_safe st ->
  exists st', main_loop fuel frames st = Ok st' /\ app_safe st'.
Proof.
  induction frames as [|[pos events] rest IH]; intros st Hfuel Hs; simpl; [eauto|].
  destruct (running st); [|eauto].
  destruct (handle_events_safe fuel pos events st Hfuel Hs) as (st1 & -> & Hs1).
  simpl. by apply IH.
Qed.

(** X12. Whatever the mouse does and whatever events arrive, in any order,
    the event loop started by [main] never raises an exception out of the
    game: every frame is handled, and the game it holds is in a state where
    the outcome agrees with the board. *)
Theorem main_loop_never_raises fuel frames :
  (10 <= fuel)%nat ->
  exists st, main_loop fuel frames app_start = Ok st /\ consistent (app_game st).
Proof.
  intros Hfuel.
  destruct (main_loop_safe fuel frames app_start Hfuel app_safe_start)
    as (st & Hm & Hs).
  exists st. split; [done | apply Hs].
Qed.

Lemma main_loop_never_raises_witness :
  exists st,
    main_loop 10 [((300, 300), [MOUSEBUTTONDOWN; USEREVENT])] app_start = Ok st /\
    consistent (app_game st).
Proof. apply (main_loop_never_raises 10); lia. Defined.

(** X13. The human never wins: in every state the event loop reaches,
    [player_wins] is 0, the recorded winner is not ['X'] and ['X'] has no
    line on the board; a game that is over was won by ['O'] or is a draw on
    a full board. *)
Theorem human_never_wins fuel frames :
  (10 <= fuel)%nat ->
  exists st,
    main_loop fuel frames app_start = Ok st /\
    player_wins (app_game st) = 0 /\
    check_winner (gboard (app_game st)) X = Ok false /\
    (game_over (app_game st) = true ->
     winner (app_game st) = Some O \/
     (winner (app_game st) = None /\ count_blank (gboard (app_game st)) = 0%nat)).
Proof.
  intros Hfuel.
  destruct (main_loop_safe fuel frames app_start Hfuel app_safe_start)
    as (st & Hm & Hc & _ & _ & Hpw & Hwin & _).
  exists st. split; [done|]. split; [done|].
  destruct Hc as (_ & _ & _ & _ & _ & _ & Hout).
  destruct (winner (app_game st)) as [[|]|].
  - done.
  - destruct Hout as (_ & _ & HX). split; [exact HX | by left].
  - destruct Hout as (HX & _ & Hfull). split; [exact HX|].
    intros Hover. right. split; [done | by apply Hfull].
Qed.

Lemma human_never_wins_witness :
  exists st,
    main_loop 10 [((300, 300), [MOUSEBUTTONDOWN; USEREVENT])] app_start = Ok st /\
    player_wins (app_game st) = 0 /\
    check_winner (gboard (app_game st)) X = Ok false /\
    (game_over (app_game st) = true ->
     winner (app_game st) = Some O \/
     (winner (app_game st) = None /\ count_blank (gboard (app_game st)) = 0%nat)).
Proof. apply (human_never_wins 10); lia. Defined.

(** X14. [main] keeps the players in turn although [make_move] does not:
    in every state the event loop reaches the board holds as many marks of
    ['X'] as of ['O'] when [current_player] is ['X'], and one more when it
    is ['O']. *)
Theorem main_loop_alternates fuel frames :
  (10 <= fuel)%nat ->
  exists st,
    main_loop fuel frames app_start = Ok st /\
    match current_player (app_game st) with
    | X => count_mark X (gboard (app_game st)) = count_mark O (gboard (app_game st))
    | O => count_mark X (gboard (app_game st)) = S (count_mark O (gboard (app_game st)))
    end.
Proof.
  intros Hfuel.
  destruct (main_loop_safe fuel frames app_start Hfuel app_safe_start)
    as (st & Hm & _ & Halt & _).
  by exists st.
Qed.

Lemma main_loop_alternates_witness :
  exists st,
    main_loop 10 [((300, 300), [MOUSEBUTTONDOWN])] app_start = Ok st /\
    match current_player (app_game st) with
    | X => count_mark X (gboard (app_game st)) = count_mark O (gboard (app_game st))
    | O => count_mark X (gboard (app_game st)) = S (count_mark O (gboard (app_game st)))
    end.
Proof. apply (main_loop_alternates 10); lia. Defined.

(** X15. The status line never announces a win of the human, and it
    announces a draw only on a full board on which nobody has a line. *)
Theorem status_never_you_win fuel frames :
  (10 <= fuel)%nat ->
  exists st,
    main_loop fuel frames app_start = Ok st /\
    status_text (app_game st) <> "You Wins!"%string /\
    (status_text (app_game st) = "It's a Draw!"%string ->
     count_blank (gboard (app_game st)) = 0%nat /\
     check_winner (gboard (app_game st)) X = Ok false /\
     check_winner (gboard (app_game st)) O = Ok false).
Proof.
  intros Hfuel.
  destruct (main_loop_safe fuel frames app_start Hfuel app_safe_start)
    as (st & Hm & Hc & _ & _ & _ & Hwin & _).
  exists st. split; [done|].
  destruct Hc as (_ & _ & _ & _ & _ & _ & Hout).
  unfold status_text.
  destruct (game_over (app_game st)) eqn:Hover.
  - destruct (winner (app_game st)) as [[|]|]; [done | by split | ].
    split; [done|]. intros _. destruct Hout as (HX & HO & Hfull).
    split; [by apply Hfull | done].
  - destruct (player_eqb (current_player (app_game st)) X); by split.
Qed.

Lemma status_never_you_win_witness :
  exists st,
    main_loop 10 [((300, 300), [MOUSEBUTTONDOWN])] app_start = Ok st /\
    status_text (app_game st) <> "You Wins!"%string /\
    (status_text (app_game st) = "It's a Draw!"%string ->
     count_blank (gboard (app_game st)) = 0%nat /\
     check_winner (gboard (app_game st)) X = Ok false /\
     check_winner (gboard (app_game st)) O = Ok false).
Proof. apply (status_never_you_win 10); lia. Defined.

(** X19. The cell [draw_board] highlights as the last automated move is a
    cell of the board that holds an ['O'], in every state the event loop
    reaches where [last_ai_move] is set. *)
Theorem last_ai_move_is_marked fuel frames :
  (10 <= fuel)%nat ->
  exists st,
    main_loop fuel frames app_start = Ok st /\
    match last_ai_move (app_game st) with
    | Some mv => in_range mv.1 mv.2 /\
                 getc (gboard (app_game st)) mv.1 mv.2 = Ok (Mark O)
    | None => True
    end.
Proof.
  intros Hfuel.
  destruct (main_loop_safe fuel frames app_start Hfuel app_safe_start)
    as (st & Hm & _ & _ & Hlast & _).
  by exists st.
Qed.

Lemma last_ai_move_is_marked_witness :
  exists st,
    main_loop 10 [((300, 300), [MOUSEBUTTONDOWN; USEREVENT])] app_start = Ok st /\
    match last_ai_move (app_game st) with
    | Some mv => in_range mv.1 mv.2 /\
                 getc (gboard (app_game st)) mv.1 mv.2 = Ok (Mark O)
    | None => True
    end.
Proof. apply (last_ai_move_is_marked 10); lia. Defined.

(** X16. A mouse click never makes [main] call [make_move] outside the
    board: for every mouse position, also a negative one or one beyond the
    window, the click is handled without an exception on a 3x3 board, and
    the board is left as it was, or blanked by the reset button, or gets an
    ['X'] in the blank cell (y // CELL_SIZE, x // CELL_SIZE) under the
    mouse. *)
Theorem click_stays_on_board fuel pos st :
  wf_board (gboard (app_game st)) = true ->
  exists st',
    handle_event fuel pos st MOUSEBUTTONDOWN = Ok st' /\
    (gboard (app_game st') = gboard (app_game st) \/
     app_game st' = reset_game (app_game st) \/
     (in_range (pos.2 / CELL_SIZE) (pos.1 / CELL_SIZE) /\
      0 <= pos.1 < WIDTH /\ 0 <= pos.2 < WIDTH /\
      getc (gboard (app_game st)) (pos.2 / CELL_SIZE) (pos.1 / CELL_SIZE) = Ok Blank /\
      setc (gboard (app_game st)) (pos.2 / CELL_SIZE) (pos.1 / CELL_SIZE) (Mark X) =
        Ok (gboard (app_game st')) /\
      ai_thinking st' = true)).
Proof.
  intros Hwf. cbn [handle_event].
  destruct (collidepoint reset_rect pos); [eexists; split; [reflexivity | by right; left]|].
  destruct (collidepoint quit_rect pos); [eexists; split; [reflexivity | by left]|].
  destruct (negb (game_over (app_game st)) && _ && _) eqn:Et;
    [|eexists; split; [reflexivity | by left]].
  apply andb_true_iff in Et as [Et _]. apply andb_true_iff in Et as [Hover _].
  apply negb_true_iff in Hover.
  destruct ((0 <=? pos.2 / CELL_SIZE) && _ && _ && _) eqn:Er;
    [|eexists; split; [reflexivity | by left]].
  apply in_range_test in Er.
  destruct (wf_getc _ _ _ Hwf Er) as [x Hg].
  destruct (wf_setc _ _ _ (Mark X) Hwf Er) as (b' & Hs & Hwf' & _).
  destruct (check_winner_total b' X Hwf') as [w Hw].
  unfold make_move. rewrite Hover, Hg. cbn [bind].
  destruct (cell_eqb x Blank) eqn:Ex; cbn [negb];
    [|eexists; split; [reflexivity | by left]].
  apply cell_eqb_eq in Ex. subst x.
  rewrite Hs. cbn [bind]. rewrite Hw. cbn [bind].
  assert (Hpix : 0 <= pos.1 < WIDTH /\ 0 <= pos.2 < WIDTH).
  { destruct Er as [[? ?] [? ?]]. unfold CELL_SIZE, WIDTH, BOARD_SIZE in *.
    change (600 / 3) with 200 in *.
    pose proof (Z.div_mod pos.1 200). pose proof (Z.mod_pos_bound pos.1 200).
    pose proof (Z.div_mod pos.2 200). pose proof (Z.mod_pos_bound pos.2 200).
    lia. }
  destruct w; [|destruct (_ =? _)];
    (eexists; split; [reflexivity|]; right; right;
     split; [exact Er|]; split; [apply Hpix|]; split; [apply Hpix|];
     split; [reflexivity|]; split; reflexivity).
Qed.

Lemma click_stays_on_board_witness :
  exists st',
    handle_event 10 (-5, 900) app_start MOUSEBUTTONDOWN = Ok st' /\
    (gboard (app_game st') = gboard (app_game app_start) \/
     app_game st' = reset_game (app_game app_start) \/
     (in_range (900 / CELL_SIZE) (-5 / CELL_SIZE) /\
      0 <= -5 < WIDTH /\ 0 <= 900 < WIDTH /\
      getc (gboard (app_game app_start)) (900 / CELL_SIZE) (-5 / CELL_SIZE) = Ok Blank /\
      setc (gboard (app_game app_start)) (900 / CELL_SIZE) (-5 / CELL_SIZE) (Mark X) =
        Ok (gboard (app_game st')) /\
      ai_thinking st' = true)).
Proof. apply (click_stays_on_board 10 (-5, 900) app_start). reflexivity. Defined.

(** ** More on [make_move] *)

Lemma wf_wrap_mod b row col :
  wf_board b = true ->
  - BOARD_SIZE <= row < BOARD_SIZE -> - BOARD_SIZE <= col < BOARD_SIZE ->
  getc b row col = getc b (row mod BOARD_SIZE) (col mod BOARD_SIZE) /\
  forall v, setc b row col v = setc b (row mod BOARD_SIZE) (col mod BOARD_SIZE) v.
Proof.
  intros Hwf Hr Hc. shape b Hwf. unfold BOARD_SIZE in *.
  assert (row = -3 \/ row = -2 \/ row = -1 \/ row = 0 \/ row = 1 \/ row = 2)
    as [-> | [-> | [-> | [-> | [-> | ->]]]]] by lia;
  assert (col = -3 \/ col = -2 \/ col = -1 \/ col = 0 \/ col = 1 \/ col = 2)
    as [-> | [-> | [-> | [-> | [-> | ->]]]]] by lia; by split.
Qed.

(** X17. With coordinates in [[-3, 3)], negative or not, [make_move] does
    what it does for the coordinates taken modulo 3: a negative index
    counts from the far edge. *)
Theorem make_move_wraps_modulo g row col p :
  wf_board (gboard g) = true ->
  - BOARD_SIZE <= row < BOARD_SIZE -> - BOARD_SIZE <= col < BOARD_SIZE ->
  make_move g row col p = make_move g (row mod BOARD_SIZE) (col mod BOARD_SIZE) p.
Proof.
  intros Hwf Hr Hc. destruct (wf_wrap_mod _ _ _ Hwf Hr Hc) as [Hg Hs].
  unfold make_move. rewrite Hg. destruct (game_over g); [done|].
  destruct (getc (gboard g) (row mod BOARD_SIZE) (col mod BOARD_SIZE)) as [x|];
    simpl; [|done].
  destruct (negb _); [done|]. by rewrite Hs.
Qed.

Lemma make_move_wraps_modulo_witness :
  make_move init_game (-2) 1 X =
  make_move init_game (-2 mod BOARD_SIZE) (1 mod BOARD_SIZE) X.
Proof.
  apply (make_move_wraps_modulo init_game (-2) 1 X);
    [reflexivity | unfold BOARD_SIZE; lia | unfold BOARD_SIZE; lia].
Defined.

(** X18. Every game is tallied once: a call of [make_move] adds one to the
    sum of the three tallies when it ends the game, and leaves all three
    alone otherwise; a game that is over stays over. *)
Theorem make_move_tallies_once g row col p ok g' :
  make_move g row col p = Ok (ok, g') ->
  (game_over g = true -> g' = g) /\
  (game_over g = false -> game_over g' = true -> tallies g' = tallies g + 1) /\
  (game_over g' = false ->
   player_wins g' = player_wins g /\ ai_wins g' = ai_wins g /\ draws g' = draws g).
Proof.
  unfold make_move, tallies. intros H.
  destruct (game_over g) eqn:Hover.
  { inversion H; subst. repeat split; congruence. }
  bind_inv H. destruct (negb (cell_eqb x Blank)).
  { inversion H; subst. repeat split; congruence. }
  bind_inv H. bind_inv H. destruct x1.
  - inversion H; subst; simpl. repeat split; try done. destruct p; lia.
  - destruct (_ =? _); inversion H; subst; simpl; repeat split; try done; lia.
Qed.

Lemma make_move_tallies_once_witness :
  (game_over before_win = true ->
   mkGame [[Mark X; Mark X; Mark X]; [Mark O; Mark O; Blank]; [Blank; Blank; Blank]]
     O true (Some X) None 5 9 1 0 0 0 0 = before_win) /\
  (game_over before_win = false -> true = true ->
   tallies (mkGame [[Mark X; Mark X; Mark X]; [Mark O; Mark O; Blank];
                    [Blank; Blank; Blank]] O true (Some X) None 5 9 1 0 0 0 0) =
   tallies before_win + 1) /\
  (true = false -> 1 = player_wins before_win /\ 0 = ai_wins before_win /\
   0 = draws before_win).
Proof.
  apply (make_move_tallies_once before_win 0 2 X true
           (mkGame [[Mark X; Mark X; Mark X]; [Mark O; Mark O; Blank];
                    [Blank; Blank; Blank]] O true (Some X) None 5 9 1 0 0 0 0)).
  reflexivity.
Defined.

(** ** How deep a search goes *)

Section DepthBound.
Variable n : nat.
Hypothesis IHn : forall g d m alpha beta s mv g',
  wf_board (gboard g) = true ->
  minimax n g d m alpha beta = Ok (s, mv, g') ->
  depth_reached g' <=
    Z.max (depth_reached g) (d + Z.of_nat (count_blank (gboard g))).

Lemma max_loop_depth cells : forall g d alpha beta max_eval best s mv g',
  wf_board (gboard g) = true ->
  Forall (fun m : move => in_range m.1 m.2 /\ getc (gboard g) m.1 m.2 = Ok Blank)
    cells ->
  max_loop (minimax n) cells g d alpha beta max_eval best = Ok (s, mv, g') ->
  depth_reached g' <=
    Z.max (depth_reached g) (d + Z.of_nat (count_blank (gboard g))).
Proof.
  induction cells as [|[row col] rest IHc];
    intros g d alpha beta me best s mv g' Hwf Hc H; simpl in H.
  - inversion H; subst. lia.
  - inversion Hc as [|? ? [Hr Hg] Hrest]; subst. simpl in Hr, Hg.
    bind_inv H. bind_inv H. destruct x0 as [[ev em] g1].
    pose proof (count_blank_setc _ _ _ _ _ Hwf Hr Hg Hx) as Hcnt.
    pose proof (setc_wf _ _ _ _ _ Hwf Hr Hx) as Hwf1.
    pose proof (IHn (with_board x g) _ _ _ _ _ _ _ Hwf1 Hx0) as Hd. simpl in Hd.
    apply minimax_frame in Hx0 as F.
    rewrite (frame_board _ _ F) in H. simpl in H.
    rewrite (setc_rollback _ _ _ _ _ _ Hg Hx) in H. simpl in H.
    destruct (score_leb beta (py_max alpha ev)).
    + inversion H; subst. simpl. lia.
    + apply IHc in H; [simpl in H; lia | exact Hwf | exact Hrest].
Qed.

Lemma min_loop_depth cells : forall g d alpha beta min_eval best s mv g',
  wf_board (gboard g) = true ->
  Forall (fun m : move => in_range m.1 m.2 /\ getc (gboard g) m.1 m.2 = Ok Blank)
    cells ->
  min_loop (minimax n) cells g d alpha beta min_eval best = Ok (s, mv, g') ->
  depth_reached g' <=
    Z.max (depth_reached g) (d + Z.of_nat (count_blank (gboard g))).
Proof.
  induction cells as [|[row col] rest IHc];
    intros g d alpha beta me best s mv g' Hwf Hc H; simpl in H.
  - inversion H; subst. lia.
  - inversion Hc as [|? ? [Hr Hg] Hrest]; subst. simpl in Hr, Hg.
    bind_inv H. bind_inv H. destruct x0 as [[ev em] g1].
    pose proof (count_blank_setc _ _ _ _ _ Hwf Hr Hg Hx) as Hcnt.
    pose proof (setc_wf _ _ _ _ _ Hwf Hr Hx) as Hwf1.
    pose proof (IHn (with_board x g) _ _ _ _ _ _ _ Hwf1 Hx0) as Hd. simpl in Hd.
    apply minimax_frame in Hx0 as F.
    rewrite (frame_board _ _ F) in H. simpl in H.
    rewrite (setc_rollback _ _ _ _ _ _ Hg Hx) in H. simpl in H.
    destruct (score_leb (py_min beta ev) alpha).
    + inversion H; subst. simpl. lia.
    + apply IHc in H; [simpl in H; lia | exact Hwf | exact Hrest].
Qed.
End DepthBound.

Lemma minimax_depth n : forall g d m alpha beta s mv g',
  wf_board (gboard g) = true ->
  minimax n g d m alpha beta = Ok (s, mv, g') ->
  depth_reached g' <=
    Z.max (depth_reached g) (d + Z.of_nat (count_blank (gboard g))).
Proof.
  induction n as [|n IH]; intros g d m alpha beta s mv g' Hwf H; [discriminate|].
  cbn [minimax] in H.
  set (g0 := with_counters _ _ g) in H.
  change (gboard g0) with (gboard g) in H.
  bind_inv H. destruct x; [inversion H; subst; simpl; lia|].
  bind_inv H. destruct x; [inversion H; subst; simpl; lia|].
  bind_inv H. destruct x as [|c cells]; [inversion H; subst; simpl; lia|].
  rewrite Hx1 in H. cbn [bind] in H.
  apply get_empty_cells_blank in Hx1.
  destruct m.
  - apply (max_loop_depth n IH) in H; [simpl in H; lia | done | done].
  - apply (min_loop_depth n IH) in H; [simpl in H; lia | done | done].
Qed.

(** X20. A search entered at depth [d] on a 3x3 board with [k] blank cells
    goes no deeper than [d + k]: when it returns, [depth_reached] is at most
    the maximum of its old value and [d + k], and at least its old value
    and [d]; so [get_ai_move] never records a depth above 9 on its own. *)
Theorem search_depth_bound fuel g d m alpha beta s mv g' :
  wf_board (gboard g) = true ->
  minimax fuel g d m alpha beta = Ok (s, mv, g') ->
  Z.max (depth_reached g) d <= depth_reached g' <=
    Z.max (depth_reached g) (d + Z.of_nat (count_blank (gboard g))).
Proof.
  intros Hwf H. split; [|by eapply minimax_depth].
  destruct (minimax_counts _ _ _ _ _ _ _ _ _ H) as (k & D & Hk & HD & Hadd).
  pose proof (Hadd (nodes_explored g) (depth_reached g)) as Hg.
  cbv beta in Hg. rewrite with_counters_id, H in Hg.
  inversion Hg as [Eg]. simpl. lia.
Qed.

Lemma search_depth_bound_witness :
  Z.max (depth_reached (with_board two_in_row init_game)) 0 <=
  depth_reached (with_counters 204 7 (with_board two_in_row init_game)) <=
  Z.max (depth_reached (with_board two_in_row init_game))
    (0 + Z.of_nat (count_blank (gboard (with_board two_in_row init_game)))).
Proof.
  apply (search_depth_bound 8 (with_board two_in_row init_game) 0 false
           NegInf PosInf (Fin (-9)) (Some (0, 2))).
  - reflexivity.
  - vm_compute. reflexivity.
Defined.
